(** * Rover power manager: mode state machine and priority allocator

    A shallow embedding of [rover_power_manager/power_manager.cpp]
    (namespace [rover_energy], class [PowerManager]) together with the
    properties its specification states about it.

    Modelling conventions

    - C++ [float] quantities (watts, volts, percent) are idealised as exact
      rationals [Q]: every comparison and arithmetic operator of the source
      is kept.  The states and events of the model therefore carry samples
      that are numbers.  What the source does on a sample that is NaN is
      treated apart, on a type [float32] that adds NaN to the numbers, and
      the rounding of the one computation whose bound depends on it, the
      motor power, is treated with an explicit rounding function.
    - [std::vector<PowerComponent>] is a [list]; the pointers collected by
      [allocatePower] are indices into that list, read with [!!] and written
      with [<[ _ := _ ]>].
    - The publishers and the logger are an append-only [outbox].
    - [std::sort] is taken twice.  By its contract (the result is a
      permutation of the input that is sorted with respect to the
      comparator), which makes [allocatePower] and [managementLoop]
      relations on manager states and covers every conforming library; and
      as libstdc++ runs it on a range of at most 16 elements, an insertion
      sort, which is the function [std_sort] and is one of the behaviours
      the contract allows.  Everything else is a function. *)

From Stdlib Require Import QArith Qminmax Qabs Lqa.
From Stdlib Require Import String Bool List Permutation Sorted Lia.
From stdpp Require Import base list strings.

Open Scope Q_scope.

(** ** Data model *)

Inductive PowerMode := NORMAL | LOW_POWER | HIBERNATION | EMERGENCY.

Record EnergyState := mkEnergyState {
  battery_soc : Q;
  voltage : Q;
  current : Q;
  power_consumption : Q;
  solar_generation : Q;
  temperature : Q;
  mode : PowerMode
}.

Inductive ComponentPriority := CRITICAL | HIGH | MEDIUM | LOW.

(** The enumerators' values ([CRITICAL = 0] ... [LOW = 3]); [operator<] on the
    enum class compares them. *)
Definition priority_value (p : ComponentPriority) : nat :=
  match p with
  | CRITICAL => 0
  | HIGH => 1
  | MEDIUM => 2
  | LOW => 3
  end.

Record PowerComponent := mkPowerComponent {
  name : string;
  priority : ComponentPriority;
  nominal_power : Q;
  current_power : Q;
  is_enabled : bool;
  is_essential : bool
}.

(** What the node hands to its collaborators: the three publishers and the
    logger. *)
Inductive Output :=
| PublishMode (data : string)
| PublishBatterySoc (data : Q)
| PublishAvailablePower (data : Q)
| LogInitialized
| LogSwitching (old_mode new_mode : string)
| LogPrediction (predicted_energy soc : Q) (mode_name : string).

Record PowerManager := mkPowerManager {
  current_mode_ : PowerMode;
  energy_state_ : EnergyState;
  components_ : list PowerComponent;
  last_prediction_time_ : Q;
  outbox : list Output
}.

(** ** Decidable comparisons used by the source *)

Definition PowerMode_eqb (a b : PowerMode) : bool :=
  match a, b with
  | NORMAL, NORMAL | LOW_POWER, LOW_POWER
  | HIBERNATION, HIBERNATION | EMERGENCY, EMERGENCY => true
  | _, _ => false
  end.

Definition ComponentPriority_eqb (a b : ComponentPriority) : bool :=
  Nat.eqb (priority_value a) (priority_value b).

Definition ComponentPriority_ltb (a b : ComponentPriority) : bool :=
  Nat.ltb (priority_value a) (priority_value b).

(** [x < y] and [x >= y] on floats. *)
Definition float_lt (x y : Q) : bool := negb (Qle_bool y x).
Definition float_ge (x y : Q) : bool := Qle_bool y x.

(** [std::max(a, b)] is [(a < b) ? b : a]. *)
Definition std_max (a b : Q) : Q := if float_lt a b then b else a.

(** [std::clamp(v, lo, hi)] is [(v < lo) ? lo : (hi < v) ? hi : v]. *)
Definition std_clamp (v lo hi : Q) : Q :=
  if float_lt v lo then lo else if float_lt hi v then hi else v.

(** ** Field updates *)

Definition set_current_power (w : Q) (c : PowerComponent) : PowerComponent :=
  mkPowerComponent (name c) (priority c) (nominal_power c) w
                   (is_enabled c) (is_essential c).

Definition set_is_enabled (b : bool) (c : PowerComponent) : PowerComponent :=
  mkPowerComponent (name c) (priority c) (nominal_power c) (current_power c)
                   b (is_essential c).

Definition set_components (cs : list PowerComponent) (pm : PowerManager)
  : PowerManager :=
  mkPowerManager (current_mode_ pm) (energy_state_ pm) cs
                 (last_prediction_time_ pm) (outbox pm).

Definition set_energy_state (es : EnergyState) (pm : PowerManager)
  : PowerManager :=
  mkPowerManager (current_mode_ pm) es (components_ pm)
                 (last_prediction_time_ pm) (outbox pm).

Definition emit (o : Output) (pm : PowerManager) : PowerManager :=
  mkPowerManager (current_mode_ pm) (energy_state_ pm) (components_ pm)
                 (last_prediction_time_ pm) (outbox pm ++ [o]).

(** ** The class, member by member *)

Definition powerModeToString (m : PowerMode) : string :=
  match m with
  | NORMAL => "NORMAL"
  | LOW_POWER => "LOW_POWER"
  | HIBERNATION => "HIBERNATION"
  | EMERGENCY => "EMERGENCY"
  end.

Definition initializeComponents : list PowerComponent :=
  [ mkPowerComponent "communication" CRITICAL 15 15 true true;
    mkPowerComponent "fdir_watchdog" CRITICAL 5 5 true true;
    mkPowerComponent "navigation" HIGH 25 25 true true;
    mkPowerComponent "motors" HIGH 50 0 true true;
    mkPowerComponent "lidar" MEDIUM 20 20 true false;
    mkPowerComponent "cameras" MEDIUM 15 15 true false;
    mkPowerComponent "science_instruments" LOW 30 0 true false;
    mkPowerComponent "heating" MEDIUM 40 0 true false ].

(** The constructor; [now] is the clock reading it stores. *)
Definition PowerManager_new (now : Q) : PowerManager :=
  mkPowerManager NORMAL
                 (mkEnergyState 100 28 0 0 0 20 NORMAL)
                 initializeComponents
                 now
                 [LogInitialized].

Definition getCurrentMode (pm : PowerManager) : PowerMode := current_mode_ pm.

Definition getEnergyState (pm : PowerManager) : EnergyState := energy_state_ pm.

Definition adjust_NORMAL (comp : PowerComponent) : PowerComponent :=
  set_is_enabled true comp.

Definition adjust_LOW_POWER (comp : PowerComponent) : PowerComponent :=
  let comp1 :=
    if ComponentPriority_eqb (priority comp) LOW
    then set_is_enabled false comp else comp in
  if String.eqb (name comp1) "cameras"
  then set_is_enabled false comp1 else comp1.

Definition adjust_HIBERNATION (comp : PowerComponent) : PowerComponent :=
  if negb (ComponentPriority_eqb (priority comp) CRITICAL)
     && negb (is_essential comp)
  then set_is_enabled false comp else comp.

Definition adjust_EMERGENCY (comp : PowerComponent) : PowerComponent :=
  if ComponentPriority_eqb (priority comp) CRITICAL
  then set_is_enabled true comp else set_is_enabled false comp.

Definition adjustComponentsForMode (m : PowerMode) (pm : PowerManager)
  : PowerManager :=
  match m with
  | NORMAL => set_components (map adjust_NORMAL (components_ pm)) pm
  | LOW_POWER => set_components (map adjust_LOW_POWER (components_ pm)) pm
  | HIBERNATION => set_components (map adjust_HIBERNATION (components_ pm)) pm
  | EMERGENCY => set_components (map adjust_EMERGENCY (components_ pm)) pm
  end.

Definition switchMode (new_mode : PowerMode) (pm : PowerManager)
  : PowerManager :=
  let pm1 := emit (LogSwitching (powerModeToString (current_mode_ pm))
                                (powerModeToString new_mode)) pm in
  let es := energy_state_ pm1 in
  let pm2 :=
    mkPowerManager new_mode
      (mkEnergyState (battery_soc es) (voltage es) (current es)
                     (power_consumption es) (solar_generation es)
                     (temperature es) new_mode)
      (components_ pm1) (last_prediction_time_ pm1) (outbox pm1) in
  let pm3 := emit (PublishMode (powerModeToString new_mode)) pm2 in
  adjustComponentsForMode new_mode pm3.

Definition setMode (m : PowerMode) (pm : PowerManager) : PowerManager :=
  if negb (PowerMode_eqb m (current_mode_ pm)) then switchMode m pm else pm.

Definition getCriticalPowerConsumption (pm : PowerManager) : Q :=
  fold_left
    (fun critical_power comp =>
       if is_enabled comp && ComponentPriority_eqb (priority comp) CRITICAL
       then critical_power + current_power comp
       else critical_power)
    (components_ pm) 0.

Definition getAvailablePower (pm : PowerManager) : Q :=
  let net_power :=
    solar_generation (energy_state_ pm) - getCriticalPowerConsumption pm in
  std_max 0 net_power.

Definition batteryCallback (data : Q) (pm : PowerManager) : PowerManager :=
  let es := energy_state_ pm in
  let soc := ((data - 24) / 5.4) * 100 in
  let soc := std_clamp soc 0 100 in
  let pm1 :=
    set_energy_state
      (mkEnergyState soc data (current es) (power_consumption es)
                     (solar_generation es) (temperature es) (mode es)) pm in
  emit (PublishBatterySoc (battery_soc (energy_state_ pm1))) pm1.

Definition solarCallback (data : Q) (pm : PowerManager) : PowerManager :=
  let es := energy_state_ pm in
  set_energy_state
    (mkEnergyState (battery_soc es) (voltage es) (current es)
                   (power_consumption es) data (temperature es) (mode es)) pm.

(** The loop of [velocityCallback]: the first component named "motors" gets
    the new draw, then [break]. *)
Fixpoint set_motors_power (motor_power : Q) (comps : list PowerComponent)
  : list PowerComponent :=
  match comps with
  | [] => []
  | comp :: rest =>
      if String.eqb (name comp) "motors"
      then set_current_power motor_power comp :: rest
      else comp :: set_motors_power motor_power rest
  end.

Definition velocityCallback (linear_x angular_z : Q) (pm : PowerManager)
  : PowerManager :=
  let speed := Qabs linear_x in
  let angular := Qabs angular_z in
  let motor_power := 10 + 40 * speed + 20 * angular in
  set_components (set_motors_power motor_power (components_ pm)) pm.

Definition updatePowerConsumption (pm : PowerManager) : PowerManager :=
  let total :=
    fold_left
      (fun total comp =>
         if is_enabled comp then total + current_power comp else total)
      (components_ pm) 0 in
  let es := energy_state_ pm in
  set_energy_state
    (mkEnergyState (battery_soc es) (voltage es) (current es) total
                   (solar_generation es) (temperature es) (mode es)) pm.

Definition determineTargetMode (pm : PowerManager) (soc power_balance : Q)
  : PowerMode :=
  if float_lt soc 15 then EMERGENCY
  else if float_lt (solar_generation (energy_state_ pm)) 5 && float_lt soc 50
  then HIBERNATION
  else if float_lt soc 30 || float_lt power_balance (-10) then LOW_POWER
  else if float_lt 40 soc && float_lt 0 power_balance then NORMAL
  else current_mode_ pm.

Definition predictEnergyForNextSol : Q :=
  let avg_solar_generation := 80 in
  let sol_duration := 24.6 * 3600 in
  let daylight_fraction := 0.5 in
  let predicted_generation :=
    avg_solar_generation * sol_duration * daylight_fraction / 3600 in
  let avg_consumption := 40 in
  let predicted_consumption := avg_consumption * sol_duration / 3600 in
  predicted_generation - predicted_consumption.

Definition predictionLoop (now : Q) (pm : PowerManager) : PowerManager :=
  let pm1 :=
    mkPowerManager (current_mode_ pm) (energy_state_ pm) (components_ pm)
                   now (outbox pm) in
  emit (LogPrediction predictEnergyForNextSol
                      (battery_soc (energy_state_ pm1))
                      (powerModeToString (current_mode_ pm1))) pm1.

(** *** [allocatePower] *)

(** First loop: the addresses of the enabled components, in registry order.
    [base] is the index of the head of [comps] in the vector. *)
Fixpoint collect_enabled (base : nat) (comps : list PowerComponent)
  : list nat :=
  match comps with
  | [] => []
  | comp :: rest =>
      if is_enabled comp
      then base :: collect_enabled (S base) rest
      else collect_enabled (S base) rest
  end.

(** [p->priority] for a pointer [p] into [comps].  The pointers are taken
    from the vector itself, so the [None] branches here and in the walk
    are never reached. *)
Definition ptr_priority (comps : list PowerComponent) (p : nat)
  : ComponentPriority :=
  match comps !! p with
  | Some comp => priority comp
  | None => CRITICAL
  end.

(** The lambda handed to [std::sort]. *)
Definition by_priority (comps : list PowerComponent) (a b : nat) : bool :=
  ComponentPriority_ltb (ptr_priority comps a) (ptr_priority comps b).

(** The postcondition of [std::sort(first, last, comp)]: the range holds the
    same elements as before and, for every position [i] and every later
    position [j], [comp(range[j], range[i])] is false. *)
Definition std_sort_post {A : Type} (comp : A -> A -> bool)
           (before after : list A) : Prop :=
  Permutation before after /\
  StronglySorted (fun x y => comp y x = false) after.

(** Second loop: the greedy walk over the sorted pointers. *)
Fixpoint allocate_walk (sorted_components : list nat) (available_power : Q)
         (comps : list PowerComponent) : list PowerComponent :=
  match sorted_components with
  | [] => comps
  | p :: rest =>
      match comps !! p with
      | Some comp =>
          if float_ge available_power (nominal_power comp)
          then allocate_walk rest (available_power - nominal_power comp)
                 (<[p := set_current_power (nominal_power comp) comp]> comps)
          else allocate_walk rest 0
                 (<[p := set_current_power available_power comp]> comps)
      | None => allocate_walk rest available_power comps
      end
  end.

(** [allocatePower] with the order produced by the sort made explicit. *)
Definition allocatePower_in_order (sorted_components : list nat)
           (pm : PowerManager) : PowerManager :=
  set_components
    (allocate_walk sorted_components (solar_generation (energy_state_ pm))
                   (components_ pm)) pm.

Definition allocatePower (pm pm' : PowerManager) : Prop :=
  exists sorted_components,
    std_sort_post (by_priority (components_ pm))
                  (collect_enabled 0 (components_ pm)) sorted_components /\
    pm' = allocatePower_in_order sorted_components pm.

(** *** [managementLoop] *)

(** Everything up to the call of [allocatePower]. *)
Definition managementLoop_decide (pm : PowerManager) : PowerManager :=
  let pm1 := updatePowerConsumption pm in
  let power_balance :=
    solar_generation (energy_state_ pm1)
    - power_consumption (energy_state_ pm1) in
  let target_mode :=
    determineTargetMode pm1 (battery_soc (energy_state_ pm1)) power_balance in
  if negb (PowerMode_eqb target_mode (current_mode_ pm1))
  then switchMode target_mode pm1 else pm1.

(** Everything after it. *)
Definition managementLoop_publish (pm : PowerManager) : PowerManager :=
  emit (PublishAvailablePower (getAvailablePower pm)) pm.

Definition managementLoop (pm pm' : PowerManager) : Prop :=
  exists pm_alloc,
    allocatePower (managementLoop_decide pm) pm_alloc /\
    pm' = managementLoop_publish pm_alloc.

(** ** Entry points and reachable states *)

(** What can happen to a manager.  The payload of a callback is a sample
    that is a number. *)
Inductive Event :=
| BatteryVoltage (data : Q)
| SolarPower (data : Q)
| CmdVel (linear_x angular_z : Q)
| ManagementTick
| PredictionTick (now : Q)
| SetMode (m : PowerMode).

Inductive step : PowerManager -> Event -> PowerManager -> Prop :=
| step_battery pm data :
    step pm (BatteryVoltage data) (batteryCallback data pm)
| step_solar pm data :
    step pm (SolarPower data) (solarCallback data pm)
| step_velocity pm linear_x angular_z :
    step pm (CmdVel linear_x angular_z) (velocityCallback linear_x angular_z pm)
| step_management pm pm' :
    managementLoop pm pm' -> step pm ManagementTick pm'
| step_prediction pm now :
    step pm (PredictionTick now) (predictionLoop now pm)
| step_setMode pm m :
    step pm (SetMode m) (setMode m pm).

Inductive run : PowerManager -> list Event -> PowerManager -> Prop :=
| run_nil pm : run pm [] pm
| run_snoc pm evs pm1 ev pm2 :
    run pm evs pm1 -> step pm1 ev pm2 -> run pm (evs ++ [ev]) pm2.

Definition reachable (pm : PowerManager) : Prop :=
  exists now evs, run (PowerManager_new now) evs pm.

(** ** Vocabulary of the specification *)

(** Sum of a list of powers. *)
Definition Qsum (l : list Q) : Q := fold_right Qplus 0 l.

(** [criticalConsumption(registry)]: the sum of [current_power] over the
    components that are enabled and of [CRITICAL] priority. *)
Definition criticalConsumption (registry : list PowerComponent) : Q :=
  Qsum (map current_power
            (List.filter
               (fun c => is_enabled c
                         && ComponentPriority_eqb (priority c) CRITICAL)
               registry)).

(** [0 <= current_power <= nominal_power]. *)
Definition within_nominal (c : PowerComponent) : Prop :=
  0 <= current_power c /\ current_power c <= nominal_power c.

(** What never changes in a registry entry. *)
Definition catalog_entry (c : PowerComponent)
  : string * ComponentPriority * Q * bool :=
  (name c, priority c, nominal_power c, is_essential c).


(** The sum of the nominal powers of the enabled components. *)
Definition enabled_demand (registry : list PowerComponent) : Q :=
  Qsum (map nominal_power (List.filter is_enabled registry)).

(** [p->nominal_power] and [p->current_power] for a pointer [p]. *)
Definition ptr_nominal_power (comps : list PowerComponent) (p : nat) : Q :=
  match comps !! p with
  | Some comp => nominal_power comp
  | None => 0
  end.

Definition ptr_current_power (comps : list PowerComponent) (p : nat) : Q :=
  match comps !! p with
  | Some comp => current_power comp
  | None => 0
  end.

(** The body of the greedy walk seen on the nominal powers alone: the draws
    it assigns, in walk order. *)
Fixpoint walk_shares (nominals : list Q) (available_power : Q) : list Q :=
  match nominals with
  | [] => []
  | n :: rest =>
      if float_ge available_power n
      then n :: walk_shares rest (available_power - n)
      else available_power :: walk_shares rest 0
  end.

(** ** A conforming [std::sort]

    Insertion sort meets [std_sort_post] for the comparator of
    [allocatePower]; with it a management tick can be run, which shows that
    the tick always has an outcome. *)

Fixpoint sort_insert {A : Type} (comp : A -> A -> bool) (x : A) (l : list A)
  : list A :=
  match l with
  | [] => [x]
  | y :: rest =>
      if comp y x then y :: sort_insert comp x rest else x :: y :: rest
  end.

Fixpoint insertion_sort {A : Type} (comp : A -> A -> bool) (l : list A)
  : list A :=
  match l with
  | [] => []
  | x :: rest => sort_insert comp x (insertion_sort comp rest)
  end.

Definition allocatePower_run (pm : PowerManager) : PowerManager :=
  allocatePower_in_order
    (insertion_sort (by_priority (components_ pm))
                    (collect_enabled 0 (components_ pm))) pm.

Definition managementLoop_run (pm : PowerManager) : PowerManager :=
  managementLoop_publish (allocatePower_run (managementLoop_decide pm)).

(** One entry point after the other, ticks run with the sort above. *)
Definition handle (pm : PowerManager) (ev : Event) : PowerManager :=
  match ev with
  | BatteryVoltage data => batteryCallback data pm
  | SolarPower data => solarCallback data pm
  | CmdVel linear_x angular_z => velocityCallback linear_x angular_z pm
  | ManagementTick => managementLoop_run pm
  | PredictionTick now => predictionLoop now pm
  | SetMode m => setMode m pm
  end.

(** Position of pointer [p] in a walk order (the length when absent). *)
Fixpoint position (p : nat) (l : list nat) : nat :=
  match l with
  | [] => 0
  | q :: rest => if Nat.eqb q p then 0 else S (position p rest)
  end.

(** What a stable sort would guarantee: enabled components of equal
    priority are walked in registry order. *)
Definition stable_walk (comps : list PowerComponent) (sorted : list nat)
  : Prop :=
  forall i j : nat,
    (i < j)%nat -> In i sorted -> In j sorted ->
    ptr_priority comps i = ptr_priority comps j ->
    (position i sorted < position j sorted)%nat.

(** The per-entry effect of [adjustComponentsForMode]. *)
Definition adjust_entry (m : PowerMode) : PowerComponent -> PowerComponent :=
  match m with
  | NORMAL => adjust_NORMAL
  | LOW_POWER => adjust_LOW_POWER
  | HIBERNATION => adjust_HIBERNATION
  | EMERGENCY => adjust_EMERGENCY
  end.

(** Telemetry within its physical range: solar power is not negative and a
    motion command asks for less than the motors' nominal 50 W, with a
    margin of 0.01 W for the rounding of the computation. *)
Definition benign (ev : Event) : Prop :=
  match ev with
  | SolarPower data => 0 <= data
  | CmdVel linear_x angular_z =>
      40 * Qabs linear_x + 20 * Qabs angular_z <= 39.99
  | _ => True
  end.

(** A CRITICAL entry is enabled. *)
Definition critical_enabled (c : PowerComponent) : Prop :=
  priority c = CRITICAL -> is_enabled c = true.

(** ** Further vocabulary *)

(** [totalConsumption(registry)]: the sum of [current_power] over the
    enabled components. *)
Definition totalConsumption (registry : list PowerComponent) : Q :=
  Qsum (map current_power (List.filter is_enabled registry)).

(** What entering a mode guarantees about the enabled flag of an entry. *)
Definition mode_rule (m : PowerMode) (c : PowerComponent) : Prop :=
  match m with
  | NORMAL => is_enabled c = true
  | LOW_POWER =>
      is_enabled c = true ->
      priority c <> LOW /\ name c <> "cameras"%string
  | HIBERNATION =>
      is_enabled c = true -> priority c = CRITICAL \/ is_essential c = true
  | EMERGENCY => is_enabled c = true <-> priority c = CRITICAL
  end.

(** The state of charge [batteryCallback] derives from a voltage sample. *)
Definition soc_of_voltage (v : Q) : Q :=
  std_clamp (((v - 24) / 5.4) * 100) 0 100.

Definition is_battery_sample (ev : Event) : bool :=
  match ev with
  | BatteryVoltage _ => true
  | _ => false
  end.

(** The strings published on [power/mode], oldest first. *)
Fixpoint published_modes (out : list Output) : list string :=
  match out with
  | [] => []
  | PublishMode data :: rest => data :: published_modes rest
  | _ :: rest => published_modes rest
  end.

(** No mode of [ms] equals the one before it, [prev] being before the
    first. *)
Fixpoint no_repeat (prev : PowerMode) (ms : list PowerMode) : Prop :=
  match ms with
  | [] => True
  | m :: rest => prev <> m /\ no_repeat m rest
  end.

(** What a consumer of the three topics and of the log can rely on. *)
Definition output_in_range (o : Output) : Prop :=
  match o with
  | PublishMode data => exists m, data = powerModeToString m
  | PublishBatterySoc data => 0 <= data /\ data <= 100
  | PublishAvailablePower data => 0 <= data
  | LogInitialized => True
  | LogSwitching old_mode new_mode =>
      exists m1 m2, old_mode = powerModeToString m1
                    /\ new_mode = powerModeToString m2 /\ m1 <> m2
  | LogPrediction predicted_energy soc mode_name =>
      predicted_energy == 0 /\ 0 <= soc /\ soc <= 100
      /\ exists m, mode_name = powerModeToString m
  end.

Definition is_prediction_tick (ev : Event) : bool :=
  match ev with
  | PredictionTick _ => true
  | _ => false
  end.

(** The manager [pm] with another stored time and another output. *)
Definition reframe (t : Q) (out : list Output) (pm : PowerManager)
  : PowerManager :=
  mkPowerManager (current_mode_ pm) (energy_state_ pm) (components_ pm) t out.

(** What the enabled components of priority [pr] draw together, what they
    ask for together, and what the enabled components served before them
    ask for. *)
Definition class_consumption (pr : ComponentPriority)
           (registry : list PowerComponent) : Q :=
  Qsum (map current_power
            (List.filter
               (fun c => is_enabled c
                         && ComponentPriority_eqb (priority c) pr)
               registry)).

Definition class_demand (pr : ComponentPriority)
           (registry : list PowerComponent) : Q :=
  Qsum (map nominal_power
            (List.filter
               (fun c => is_enabled c
                         && ComponentPriority_eqb (priority c) pr)
               registry)).

Definition earlier_demand (pr : ComponentPriority)
           (registry : list PowerComponent) : Q :=
  Qsum (map nominal_power
            (List.filter
               (fun c => is_enabled c
                         && ComponentPriority_ltb (priority c) pr)
               registry)).

(** The budget left when the walk has passed the nominal powers [ns]. *)
Fixpoint walk_remaining (nominals : list Q) (available_power : Q) : Q :=
  match nominals with
  | [] => available_power
  | n :: rest =>
      if float_ge available_power n
      then walk_remaining rest (available_power - n)
      else walk_remaining rest 0
  end.

(** ** [std::sort] as libstdc++ runs it on a short range

    In [bits/stl_algo.h], [std::sort] calls [__introsort_loop], whose loop
    runs only while the range is longer than [_S_threshold = 16], and then
    [__final_insertion_sort], which on a range of at most 16 elements calls
    [__insertion_sort].  The registry has eight entries, so this is the
    path every sort of this program takes. *)

Definition S_threshold : nat := 16.

(** [__unguarded_linear_insert]: [before] lists the elements to the left of
    the hole, nearest first; the result lists the same stretch with [val]
    put in, in the same direction.  The empty case does not occur: the
    caller has checked that [val] does not go before the first element. *)
Fixpoint unguarded_linear_insert {A : Type} (comp : A -> A -> bool)
         (val : A) (before : list A) : list A :=
  match before with
  | [] => [val]
  | next :: rest =>
      if comp val next
      then next :: unguarded_linear_insert comp val rest
      else val :: before
  end.

(** One turn of the loop of [__insertion_sort]: [sorted_part] is the range
    from [first] up to [i], [val] is [*i]. *)
Definition insertion_sort_step {A : Type} (comp : A -> A -> bool)
           (sorted_part : list A) (val : A) : list A :=
  match sorted_part with
  | [] => [val]
  | first :: _ =>
      if comp val first
      then val :: sorted_part
      else rev (unguarded_linear_insert comp val (rev sorted_part))
  end.

Definition std_insertion_sort {A : Type} (comp : A -> A -> bool)
           (range : list A) : list A :=
  match range with
  | [] => []
  | first :: rest => fold_left (insertion_sort_step comp) rest [first]
  end.

(** [std::sort] on a range of at most 16 elements.  Longer ranges go
    through the introsort partitioning, which is not modelled. *)
Definition std_sort {A : Type} (comp : A -> A -> bool) (range : list A)
  : option (list A) :=
  if (length range <=? S_threshold)%nat
  then Some (std_insertion_sort comp range)
  else None.

(** [allocatePower] with that sort: the allocation the program makes. *)
Definition allocatePower_libstdcxx (pm : PowerManager) : option PowerManager :=
  match std_sort (by_priority (components_ pm))
                 (collect_enabled 0 (components_ pm)) with
  | Some sorted_components =>
      Some (allocatePower_in_order sorted_components pm)
  | None => None
  end.

(** ** Samples that are not numbers

    The callbacks above take samples that are numbers.  A [float] can also
    be NaN: arithmetic on NaN gives NaN and every comparison with NaN is
    false.  The definitions below redo the arithmetic of [batteryCallback]
    on samples that may be NaN. *)

Inductive float32 :=
| Number (q : Q)
| NaN.

Definition float32_op (op : Q -> Q -> Q) (a b : float32) : float32 :=
  match a, b with
  | Number x, Number y => Number (op x y)
  | _, _ => NaN
  end.

Definition float32_lt (a b : float32) : bool :=
  match a, b with
  | Number x, Number y => float_lt x y
  | _, _ => false
  end.

(** [std::clamp(v, lo, hi)] on such values. *)
Definition std_clamp_float32 (v lo hi : float32) : float32 :=
  if float32_lt v lo then lo else if float32_lt hi v then hi else v.

(** The state of charge [batteryCallback] stores and publishes for a
    sample [data] (the two assignments to [battery_soc]). *)
Definition batteryCallback_soc_float32 (data : float32) : float32 :=
  let soc :=
    float32_op Qmult
      (float32_op Qdiv (float32_op Qminus data (Number 24)) (Number 5.4))
      (Number 100) in
  std_clamp_float32 soc (Number 0) (Number 100).

(** A value that is a number between [lo] and [hi]. *)
Definition float32_between (lo hi : Q) (v : float32) : Prop :=
  match v with
  | Number q => lo <= q /\ q <= hi
  | NaN => False
  end.


(** [std::abs] and the motor power of [velocityCallback] on such values. *)
Definition float32_abs (a : float32) : float32 :=
  match a with
  | Number x => Number (Qabs x)
  | NaN => NaN
  end.

Definition motor_power_float32 (linear_x angular_z : float32) : float32 :=
  let speed := float32_abs linear_x in
  let angular := float32_abs angular_z in
  float32_op Qplus
    (float32_op Qplus (Number 10) (float32_op Qmult (Number 40) speed))
    (float32_op Qmult (Number 20) angular).

(** ** Rounding in [velocityCallback]

    [motor_power] is computed in binary32: the two magnitudes are converted
    from [double], and each product and each sum is rounded.  [rnd] stands
    for that rounding; [10], [40] and [20] are floats already. *)

Definition motor_power_rounded (rnd : Q -> Q) (linear_x angular_z : Q) : Q :=
  let speed := rnd (Qabs linear_x) in
  let angular := rnd (Qabs angular_z) in
  rnd (rnd (10 + rnd (40 * speed)) + rnd (20 * angular)).

(** Round to nearest in binary32 is off by at most half a unit in the last
    place: a relative error of [2^-24] on values in the normal range, an
    absolute error of [2^-150] below it. *)
Definition binary32_rounding (rnd : Q -> Q) : Prop :=
  forall q : Q,
    Qabs (rnd q - q)
    <= Qabs q * (1 # 2 ^ 24) + (1 # 2 ^ 150).
(** ** Comparisons reflect the order of [Q] *)

Lemma float_lt_spec (x y : Q) : float_lt x y = true <-> x < y.
Proof.
  unfold float_lt. rewrite negb_true_iff.
  destruct (Qle_bool y x) eqn:E.
  - apply Qle_bool_iff in E. split; [discriminate | intros H; lra].
  - split; [intros _ | reflexivity].
    destruct (Qlt_le_dec x y) as [H | H]; [exact H |].
    apply Qle_bool_iff in H. congruence.
Qed.

Lemma float_lt_false (x y : Q) : float_lt x y = false <-> y <= x.
Proof.
  unfold float_lt. rewrite negb_false_iff. apply Qle_bool_iff.
Qed.

Lemma float_ge_spec (x y : Q) : float_ge x y = true <-> y <= x.
Proof. unfold float_ge. apply Qle_bool_iff. Qed.

Lemma float_ge_false (x y : Q) : float_ge x y = false <-> x < y.
Proof.
  unfold float_ge. rewrite <- (float_lt_spec x y). unfold float_lt.
  destruct (Qle_bool y x); simpl; split; congruence.
Qed.

(** Case analysis on one comparison of the source, leaving the order fact
    in the context. *)
Ltac float_case x y :=
  let E := fresh "E" in
  destruct (float_lt x y) eqn:E;
  [apply float_lt_spec in E | apply float_lt_false in E].

Lemma PowerMode_eqb_refl (m : PowerMode) : PowerMode_eqb m m = true.
Proof. destruct m; reflexivity. Qed.

Lemma PowerMode_eqb_eq (a b : PowerMode) : PowerMode_eqb a b = true <-> a = b.
Proof. destruct a, b; simpl; split; congruence. Qed.

Lemma ComponentPriority_eqb_eq (a b : ComponentPriority) :
  ComponentPriority_eqb a b = true <-> a = b.
Proof.
  destruct a, b; unfold ComponentPriority_eqb; simpl; split; congruence.
Qed.

Lemma std_max_Qmax (a b : Q) : std_max a b == Qmax a b.
Proof.
  unfold std_max. float_case a b.
  - rewrite Q.max_r by lra. reflexivity.
  - rewrite Q.max_l by lra. reflexivity.
Qed.

Lemma std_clamp_Qmin_Qmax (v lo hi : Q) :
  lo <= hi -> std_clamp v lo hi == Qmin hi (Qmax lo v).
Proof.
  intros Hlh. unfold std_clamp.
  float_case v lo.
  - rewrite Q.max_l by lra. rewrite Q.min_r by lra. reflexivity.
  - rewrite Q.max_r by lra.
    float_case hi v.
    + rewrite Q.min_l by lra. reflexivity.
    + rewrite Q.min_r by lra. reflexivity.
Qed.

(** ** Mode decision *)

(** C2. [determineTargetMode], called as [managementLoop] calls it (with the
    state of charge of the energy state and the balance
    [solar_generation - power_consumption]), evaluates its rules in order and
    the first that matches decides: state of charge below 15 gives EMERGENCY
    whatever the other fields are; otherwise solar generation below 5 with
    state of charge below 50 gives HIBERNATION; otherwise state of charge
    below 30 or balance below -10 gives LOW_POWER; otherwise state of charge
    above 40 with positive balance gives NORMAL; otherwise the current mode
    is returned.  The result depends on the manager only through its energy
    state and its current mode. *)
Theorem determineTargetMode_rules (pm : PowerManager) :
  let es := energy_state_ pm in
  let soc := battery_soc es in
  let balance := solar_generation es - power_consumption es in
  let target := determineTargetMode pm soc balance in
  (soc < 15 -> target = EMERGENCY) /\
  (~ soc < 15 ->
   solar_generation es < 5 /\ soc < 50 -> target = HIBERNATION) /\
  (~ soc < 15 -> ~ (solar_generation es < 5 /\ soc < 50) ->
   soc < 30 \/ balance < -10 -> target = LOW_POWER) /\
  (~ soc < 15 -> ~ (solar_generation es < 5 /\ soc < 50) ->
   ~ (soc < 30 \/ balance < -10) ->
   40 < soc /\ 0 < balance -> target = NORMAL) /\
  (~ soc < 15 -> ~ (solar_generation es < 5 /\ soc < 50) ->
   ~ (soc < 30 \/ balance < -10) -> ~ (40 < soc /\ 0 < balance) ->
   target = current_mode_ pm) /\
  (forall pm2 : PowerManager,
      energy_state_ pm2 = energy_state_ pm ->
      current_mode_ pm2 = current_mode_ pm ->
      determineTargetMode pm2 soc balance = target).
Proof.
  cbv zeta. unfold determineTargetMode.
  set (es := energy_state_ pm).
  set (soc := battery_soc es).
  set (balance := solar_generation es - power_consumption es).
  repeat split.
  - intros H. apply float_lt_spec in H. now rewrite H.
  - intros H1 [H2 H3].
    float_case soc 15; [contradiction |].
    apply float_lt_spec in H2, H3. now rewrite H2, H3.
  - intros H1 H2 H3.
    float_case soc 15; [contradiction |].
    float_case (solar_generation es) 5; float_case soc 50; simpl;
      try (exfalso; apply H2; split; assumption).
    all: destruct H3 as [H3 | H3]; apply float_lt_spec in H3; rewrite H3;
      try reflexivity; now rewrite orb_true_r.
  - intros H1 H2 H3 [H4 H5].
    float_case soc 15; [contradiction |].
    float_case (solar_generation es) 5; float_case soc 50; simpl;
      try (exfalso; apply H2; split; assumption).
    all: float_case soc 30; [exfalso; apply H3; now left |];
      float_case balance (-10); [exfalso; apply H3; now right |]; simpl;
      apply float_lt_spec in H4, H5; now rewrite H4, H5.
  - intros H1 H2 H3 H4.
    float_case soc 15; [contradiction |].
    float_case (solar_generation es) 5; float_case soc 50; simpl;
      try (exfalso; apply H2; split; assumption).
    all: float_case soc 30; [exfalso; apply H3; now left |];
      float_case balance (-10); [exfalso; apply H3; now right |]; simpl;
      float_case 40 soc; float_case 0 balance; simpl; try reflexivity;
      exfalso; apply H4; split; assumption.
  - intros pm2 Hes Hmode. rewrite Hes, Hmode. reflexivity.
Qed.

(** C2 on an instance: the rules at work on the initial manager after a voltage sample of 24 V
    (state of charge 0): EMERGENCY. *)
Lemma determineTargetMode_rules_witness :
  let pm := batteryCallback 24 (PowerManager_new 0) in
  determineTargetMode pm (battery_soc (energy_state_ pm))
    (solar_generation (energy_state_ pm)
     - power_consumption (energy_state_ pm)) = EMERGENCY.
Proof.
  cbv zeta.
  apply (proj1 (determineTargetMode_rules
                  (batteryCallback 24 (PowerManager_new 0)))).
  vm_compute. reflexivity.
Defined.

Lemma switchMode_current_mode (m : PowerMode) (pm : PowerManager) :
  current_mode_ (switchMode m pm) = m.
Proof. destruct m; reflexivity. Qed.

Lemma switchMode_solar_generation (m : PowerMode) (pm : PowerManager) :
  solar_generation (energy_state_ (switchMode m pm))
  = solar_generation (energy_state_ pm).
Proof. destruct m; reflexivity. Qed.

(** C4 as stated fails.  The band [30 < soc <= 40],
    [-10 <= balance <= 0] does not protect the current mode from rule 2:
    right after construction, one voltage sample of 26 V puts the state of
    charge at 1000/27 (about 37) with balance 0, solar generation is still
    0, and the decision is HIBERNATION while the current mode is NORMAL. *)
Lemma hysteresis_band_counterexample :
  let pm := batteryCallback 26 (PowerManager_new 0) in
  let es := energy_state_ pm in
  let balance := solar_generation es - power_consumption es in
  reachable pm /\
  30 < battery_soc es /\ battery_soc es <= 40 /\
  -10 <= balance /\ balance <= 0 /\
  current_mode_ pm = NORMAL /\
  determineTargetMode pm (battery_soc es) balance = HIBERNATION /\
  determineTargetMode pm (battery_soc es) balance <> current_mode_ pm.
Proof.
  cbv zeta. split.
  - exists 0, [BatteryVoltage 26].
    apply (run_snoc _ [] (PowerManager_new 0)); constructor.
  - repeat split; try (vm_compute; congruence).
Qed.

(** C4 (amended). In the band [30 < soc <= 40], [-10 <= balance <= 0],
    and with solar generation at least 5, [determineTargetMode] returns the
    current mode, whatever that mode is.  Deciding again on the same inputs
    after the decided mode has been set gives the same mode: the decision
    does not oscillate. *)
Theorem hysteresis_band_with_sun (pm : PowerManager) :
  let es := energy_state_ pm in
  let soc := battery_soc es in
  let balance := solar_generation es - power_consumption es in
  let target := determineTargetMode pm soc balance in
  (30 < soc -> soc <= 40 -> -10 <= balance -> balance <= 0 ->
   5 <= solar_generation es ->
   target = current_mode_ pm) /\
  determineTargetMode (setMode target pm) soc balance = target.
Proof.
  cbv zeta.
  set (es := energy_state_ pm).
  set (soc := battery_soc es).
  set (balance := solar_generation es - power_consumption es).
  split.
  - intros H1 H2 H3 H4 H5. unfold determineTargetMode. fold es.
    float_case soc 15; [lra |].
    float_case (solar_generation es) 5; [lra |]. simpl.
    float_case soc 30; [lra |].
    float_case balance (-10); [lra |]. simpl.
    float_case 40 soc; [lra |]. reflexivity.
  - unfold setMode.
    destruct (PowerMode_eqb (determineTargetMode pm soc balance)
                            (current_mode_ pm)) eqn:E; simpl.
    + reflexivity.
    + assert (Hgo : forall t,
                 determineTargetMode pm soc balance = t ->
                 determineTargetMode (switchMode t pm) soc balance = t).
      { intros t. unfold determineTargetMode.
        rewrite switchMode_solar_generation, switchMode_current_mode.
        fold es.
        destruct (float_lt soc 15); [easy |].
        destruct (float_lt (solar_generation es) 5 && float_lt soc 50);
          [easy |].
        destruct (float_lt soc 30 || float_lt balance (-10)); [easy |].
        destruct (float_lt 40 soc && float_lt 0 balance); easy. }
      now apply Hgo.
Qed.

(** C4 (amended) on an instance, a manager in the band with sun: state of charge 35, solar
    generation 6, consumption field 10, mode LOW_POWER. *)
Lemma hysteresis_band_with_sun_witness :
  let pm :=
    mkPowerManager LOW_POWER (mkEnergyState 35 25.89 0 10 6 20 LOW_POWER)
                   initializeComponents 0 [] in
  determineTargetMode pm 35 (6 - 10) = LOW_POWER.
Proof.
  cbv zeta.
  apply (proj1 (hysteresis_band_with_sun
                  (mkPowerManager LOW_POWER
                     (mkEnergyState 35 25.89 0 10 6 20 LOW_POWER)
                     initializeComponents 0 []))); vm_compute; congruence.
Defined.

(** ** Mode transitions *)

Lemma adjust_EMERGENCY_catalog (c : PowerComponent) :
  catalog_entry (adjust_EMERGENCY c) = catalog_entry c
  /\ current_power (adjust_EMERGENCY c) = current_power c.
Proof. unfold adjust_EMERGENCY. destruct (ComponentPriority_eqb _ _); easy. Qed.

Lemma adjust_EMERGENCY_enabled (c : PowerComponent) :
  is_enabled (adjust_EMERGENCY c) = true
  <-> priority (adjust_EMERGENCY c) = CRITICAL.
Proof.
  unfold adjust_EMERGENCY.
  destruct (ComponentPriority_eqb (priority c) CRITICAL) eqn:E; simpl.
  - apply ComponentPriority_eqb_eq in E. easy.
  - split; [discriminate |]. intros H.
    apply ComponentPriority_eqb_eq in H. congruence.
Qed.

Lemma switchMode_components (m : PowerMode) (pm : PowerManager) :
  components_ (switchMode m pm)
  = components_ (adjustComponentsForMode m pm).
Proof. destruct m; reflexivity. Qed.

(** C6. The EMERGENCY transition, applied to any manager state, keeps the
    registry entry by entry (names, priorities, nominal powers, essential
    flags and current draws) and leaves a component enabled exactly when
    its priority is CRITICAL, whatever was enabled before. *)
Theorem emergency_enables_exactly_critical (pm : PowerManager) :
  let after := components_ (switchMode EMERGENCY pm) in
  after = components_ (adjustComponentsForMode EMERGENCY pm) /\
  map catalog_entry after = map catalog_entry (components_ pm) /\
  map current_power after = map current_power (components_ pm) /\
  Forall (fun c => is_enabled c = true <-> priority c = CRITICAL) after.
Proof.
  cbv zeta. rewrite switchMode_components. simpl.
  split; [reflexivity |].
  induction (components_ pm) as [| c cs IH]; simpl.
  - repeat split; constructor.
  - destruct IH as (IH1 & IH2 & IH3).
    destruct (adjust_EMERGENCY_catalog c) as [Hc Hp].
    rewrite Hc, Hp, IH1, IH2. repeat split.
    constructor; [apply adjust_EMERGENCY_enabled | exact IH3].
Qed.

(** C7. [setMode] called with the mode that is already current returns the
    manager unchanged: same current mode, same energy state, same registry
    in every field, and nothing added to what was published or logged.
    Hence a second [setMode] with the same mode never changes anything. *)
Theorem setMode_current_is_noop (pm : PowerManager) :
  setMode (current_mode_ pm) pm = pm /\
  (forall m : PowerMode, setMode m (setMode m pm) = setMode m pm).
Proof.
  split.
  - unfold setMode. now rewrite PowerMode_eqb_refl.
  - intros m. unfold setMode at 2 3.
    destruct (PowerMode_eqb m (current_mode_ pm)) eqn:E; simpl.
    + unfold setMode. now rewrite E.
    + unfold setMode.
      now rewrite switchMode_current_mode, PowerMode_eqb_refl.
Qed.

(** ** Telemetry and queries *)

(** The linear voltage map before clamping is increasing. *)
Lemma linear_soc_mono (v1 v2 : Q) :
  v1 <= v2 -> ((v1 - 24) / 5.4) * 100 <= ((v2 - 24) / 5.4) * 100.
Proof.
  intros H. unfold Qdiv.
  change (/ 5.4) with (10 # 54). lra.
Qed.

Lemma std_clamp_range (v lo hi : Q) :
  lo <= hi -> lo <= std_clamp v lo hi /\ std_clamp v lo hi <= hi.
Proof.
  intros H. unfold std_clamp.
  float_case v lo; [lra |]. float_case hi v; lra.
Qed.

Lemma std_clamp_mono (v1 v2 lo hi : Q) :
  lo <= hi -> v1 <= v2 -> std_clamp v1 lo hi <= std_clamp v2 lo hi.
Proof.
  intros Hlh H. unfold std_clamp.
  float_case v1 lo; float_case v2 lo; try lra;
    float_case hi v1; float_case hi v2; lra.
Qed.

(** C8 as stated fails.  A voltage sample need not be a number: on NaN
    the linear map gives NaN, both comparisons of [std::clamp] are false,
    and the state of charge stored and published is NaN, which is not in
    [0, 100]. *)
Lemma battery_soc_nan_counterexample :
  batteryCallback_soc_float32 NaN = NaN /\
  float32_lt NaN (Number 0) = false /\
  float32_lt (Number 100) NaN = false /\
  ~ float32_between 0 100 (batteryCallback_soc_float32 NaN).
Proof. repeat split. intros H. exact H. Qed.

(** C8 (amended). For every voltage sample [v] that is a number the
    battery callback stores [clamp(((v - 24) / 5.4) * 100, 0, 100)] as
    state of charge; the stored value lies in [0, 100] and is
    non-decreasing in [v].  The sample itself is stored as voltage and the
    state of charge is published.  On such a sample the computation that
    allows for NaN returns the same number. *)
Theorem batteryCallback_soc (pm : PowerManager) (v : Q) :
  let soc := battery_soc (energy_state_ (batteryCallback v pm)) in
  soc == Qmin 100 (Qmax 0 (((v - 24) / 5.4) * 100)) /\
  0 <= soc /\ soc <= 100 /\
  (forall (pm2 : PowerManager) (v2 : Q),
      v <= v2 -> soc <= battery_soc (energy_state_ (batteryCallback v2 pm2))) /\
  voltage (energy_state_ (batteryCallback v pm)) = v /\
  outbox (batteryCallback v pm) = outbox pm ++ [PublishBatterySoc soc] /\
  batteryCallback_soc_float32 (Number v) = Number soc /\
  float32_between 0 100 (batteryCallback_soc_float32 (Number v)).
Proof.
  cbv zeta. simpl.
  assert (H100 : 0 <= 100) by lra.
  split; [apply std_clamp_Qmin_Qmax; lra |].
  destruct (std_clamp_range (((v - 24) / 5.4) * 100) 0 100 H100) as [Hlo Hhi].
  assert (Hnum : batteryCallback_soc_float32 (Number v)
                 = Number (std_clamp (((v - 24) / 5.4) * 100) 0 100)).
  { unfold batteryCallback_soc_float32, std_clamp_float32, std_clamp. simpl.
    destruct (float_lt (((v - 24) / 5.4) * 100) 0); [reflexivity |].
    destruct (float_lt 100 (((v - 24) / 5.4) * 100)); reflexivity. }
  split; [exact Hlo |]. split; [exact Hhi |]. split; [| split; [| split]].
  - intros _ v2 Hv. apply std_clamp_mono; [lra |]. now apply linear_soc_mono.
  - reflexivity.
  - reflexivity.
  - split; [exact Hnum |]. rewrite Hnum. simpl. now split.
Qed.

(** C8 (amended) on an instance: two samples, 25 V and 26 V, from the
    initial manager. *)
Lemma batteryCallback_soc_witness :
  battery_soc (energy_state_ (batteryCallback 25 (PowerManager_new 0)))
  <= battery_soc (energy_state_ (batteryCallback 26 (PowerManager_new 0))).
Proof.
  apply (proj1 (proj2 (proj2 (proj2
           (batteryCallback_soc (PowerManager_new 0) 25))))).
  vm_compute; congruence.
Defined.

Lemma fold_left_Qplus_shift (A : Type) (f : A -> option Q) (l : list A)
      (acc : Q) :
  fold_left (fun a x => match f x with Some q => a + q | None => a end) l acc
  == acc + fold_left (fun a x => match f x with Some q => a + q | None => a end)
                     l 0.
Proof.
  revert acc. induction l as [| x l IH]; intros acc; simpl.
  - lra.
  - destruct (f x) as [q |].
    + rewrite IH. rewrite (IH (0 + q)). lra.
    + apply IH.
Qed.

(** The accumulation loop of [getCriticalPowerConsumption] computes the
    sum the specification names. *)
Lemma getCriticalPowerConsumption_sum (pm : PowerManager) :
  getCriticalPowerConsumption pm == criticalConsumption (components_ pm).
Proof.
  unfold getCriticalPowerConsumption, criticalConsumption.
  set (sel := fun c : PowerComponent =>
                if is_enabled c && ComponentPriority_eqb (priority c) CRITICAL
                then Some (current_power c) else None).
  transitivity
    (fold_left (fun a x => match sel x with Some q => a + q | None => a end)
               (components_ pm) 0).
  { generalize 0 at 1 2. induction (components_ pm) as [| c cs IH];
      intros acc; simpl; [reflexivity |].
    unfold sel at 2.
    destruct (is_enabled c && ComponentPriority_eqb (priority c) CRITICAL);
      apply IH. }
  induction (components_ pm) as [| c cs IH]; simpl; [reflexivity |].
  rewrite fold_left_Qplus_shift. unfold sel at 1.
  destruct (is_enabled c && ComponentPriority_eqb (priority c) CRITICAL);
    simpl; rewrite IH; lra.
Qed.

(** C9. The reported available power is
    [max(0, solar_generation - criticalConsumption)], the critical
    consumption being the sum of [current_power] over the enabled
    components of CRITICAL priority; it is never negative.  This is the
    figure a management tick publishes last, for the state it leaves. *)
Theorem getAvailablePower_spec (pm : PowerManager) :
  getAvailablePower pm
  == Qmax 0 (solar_generation (energy_state_ pm)
             - criticalConsumption (components_ pm))
  /\ 0 <= getAvailablePower pm
  /\ (forall before : PowerManager,
        managementLoop before pm ->
        exists earlier,
          outbox pm = earlier ++ [PublishAvailablePower (getAvailablePower pm)]).
Proof.
  unfold getAvailablePower at 1 2. cbv zeta. split; [| split].
  - rewrite std_max_Qmax. rewrite getCriticalPowerConsumption_sum.
    reflexivity.
  - rewrite std_max_Qmax. apply Q.le_max_l.
  - intros before (pm_alloc & _ & ->).
    exists (outbox pm_alloc). reflexivity.
Qed.

(** ** Sorting by priority *)

Section KeySort.
Context {A : Type} (key : A -> nat).

Let comp (x y : A) : bool := Nat.ltb (key x) (key y).

Lemma sort_insert_Permutation (x : A) (l : list A) :
  Permutation (x :: l) (sort_insert comp x l).
Proof.
  induction l as [| y l IH]; simpl; [reflexivity |].
  destruct (comp y x); [| reflexivity].
  rewrite perm_swap. now apply perm_skip.
Qed.

Lemma insertion_sort_Permutation (l : list A) :
  Permutation l (insertion_sort comp l).
Proof.
  induction l as [| x l IH]; simpl; [constructor |].
  rewrite <- sort_insert_Permutation. now apply perm_skip.
Qed.

Lemma sort_insert_sorted (x : A) (l : list A) :
  StronglySorted (fun a b => comp b a = false) l ->
  StronglySorted (fun a b => comp b a = false) (sort_insert comp x l).
Proof.
  induction 1 as [| y l Hl IH Hy]; simpl.
  - repeat constructor.
  - destruct (comp y x) eqn:E.
    + constructor; [exact IH |].
      apply (Permutation_Forall (sort_insert_Permutation x l)).
      constructor; [| exact Hy].
      unfold comp in *. apply Nat.ltb_lt in E. apply Nat.ltb_ge. lia.
    + constructor; [now constructor |].
      constructor; [exact E |].
      unfold comp in *. apply Nat.ltb_ge in E.
      eapply Forall_impl; [exact Hy |]. simpl. intros z Hz.
      apply Nat.ltb_ge in Hz. apply Nat.ltb_ge. lia.
Qed.

Lemma insertion_sort_post (l : list A) :
  std_sort_post comp l (insertion_sort comp l).
Proof.
  split; [apply insertion_sort_Permutation |].
  induction l as [| x l IH]; simpl; [constructor |].
  now apply sort_insert_sorted.
Qed.
End KeySort.

Lemma allocatePower_run_ok (pm : PowerManager) :
  allocatePower pm (allocatePower_run pm).
Proof.
  eexists. split; [| reflexivity].
  apply (insertion_sort_post
           (fun p => priority_value (ptr_priority (components_ pm) p))).
Qed.

(** A management tick always has an outcome. *)
Lemma managementLoop_run_ok (pm : PowerManager) :
  managementLoop pm (managementLoop_run pm).
Proof.
  eexists. split; [apply allocatePower_run_ok | reflexivity].
Qed.

Lemma handle_step (pm : PowerManager) (ev : Event) : step pm ev (handle pm ev).
Proof.
  destruct ev; simpl; try constructor. apply managementLoop_run_ok.
Qed.

Lemma run_handle (pm : PowerManager) (evs : list Event) :
  run pm evs (fold_left handle evs pm).
Proof.
  induction evs as [| ev evs IH] using rev_ind; simpl; [constructor |].
  rewrite fold_left_app. simpl. econstructor; [exact IH | apply handle_step].
Qed.

(** C9 on an instance: the first tick of a fresh manager ends by
    publishing its budget. *)
Lemma getAvailablePower_spec_witness :
  exists earlier,
    outbox (managementLoop_run (PowerManager_new 0))
    = earlier
      ++ [PublishAvailablePower
            (getAvailablePower (managementLoop_run (PowerManager_new 0)))].
Proof.
  apply (proj2 (proj2 (getAvailablePower_spec _)) (PowerManager_new 0)).
  apply managementLoop_run_ok.
Defined.

(** ** The greedy walk *)

Lemma set_current_power_id (c : PowerComponent) :
  set_current_power (current_power c) c = c.
Proof. now destruct c. Qed.

(** Every entry of the registry after the walk is the entry before it with
    a new draw. *)
Lemma allocate_walk_lookup (sorted : list nat) (a : Q)
      (comps : list PowerComponent) (p : nat) (c : PowerComponent) :
  comps !! p = Some c ->
  exists w, allocate_walk sorted a comps !! p = Some (set_current_power w c).
Proof.
  revert a comps c. induction sorted as [| q rest IH]; intros a comps c Hc.
  - exists (current_power c). simpl. now rewrite set_current_power_id.
  - simpl. destruct (comps !! q) as [cq |] eqn:Hq; [| now apply IH].
    assert (Hstep : forall w,
               exists c', <[q := set_current_power w cq]> comps !! p = Some c'
                          /\ forall w', set_current_power w' c'
                                        = set_current_power w' c).
    { intros w. destruct (decide (q = p)) as [-> | Hne].
      - exists (set_current_power w cq). split.
        + apply list_lookup_insert_eq. now apply lookup_lt_Some in Hq.
        + intros w'. rewrite Hq in Hc. injection Hc as ->. reflexivity.
      - exists c. split; [| reflexivity].
        now rewrite list_lookup_insert_ne. }
    destruct (float_ge a (nominal_power cq)).
    + destruct (Hstep (nominal_power cq)) as (c' & Hc' & Hsame).
      destruct (IH (a - nominal_power cq) _ _ Hc') as [w Hw].
      exists w. now rewrite Hw, Hsame.
    + destruct (Hstep a) as (c' & Hc' & Hsame).
      destruct (IH 0 _ _ Hc') as [w Hw].
      exists w. now rewrite Hw, Hsame.
Qed.

(** Components that are not pointed to are not written. *)
Lemma allocate_walk_lookup_other (sorted : list nat) (a : Q)
      (comps : list PowerComponent) (p : nat) :
  ~ In p sorted -> allocate_walk sorted a comps !! p = comps !! p.
Proof.
  revert a comps. induction sorted as [| q rest IH]; intros a comps Hp.
  - reflexivity.
  - simpl in *. assert (q <> p /\ ~ In p rest) as [Hne Hrest] by tauto.
    destruct (comps !! q) as [cq |]; [| now apply IH].
    destruct (float_ge a (nominal_power cq));
      rewrite IH by assumption; now apply list_lookup_insert_ne.
Qed.

Lemma allocate_walk_length (sorted : list nat) (a : Q)
      (comps : list PowerComponent) :
  length (allocate_walk sorted a comps) = length comps.
Proof.
  revert a comps. induction sorted as [| q rest IH]; intros a comps.
  - reflexivity.
  - simpl. destruct (comps !! q) as [cq |]; [| apply IH].
    destruct (float_ge a (nominal_power cq)); rewrite IH;
      apply length_insert.
Qed.

(** A field that [set_current_power] does not touch is the same before and
    after the walk, entry by entry. *)
Lemma allocate_walk_map {B : Type} (f : PowerComponent -> B)
      (sorted : list nat) (a : Q) (comps : list PowerComponent) :
  (forall w c, f (set_current_power w c) = f c) ->
  map f (allocate_walk sorted a comps) = map f comps.
Proof.
  intros Hf. apply list_eq. intros i.
  change (map f) with (fmap (M := list) f).
  rewrite !list_lookup_fmap.
  destruct (comps !! i) as [c |] eqn:Hc.
  - destruct (allocate_walk_lookup sorted a comps i c Hc) as [w Hw].
    rewrite Hw. simpl. now rewrite Hf.
  - apply lookup_ge_None in Hc.
    rewrite <- (allocate_walk_length sorted a comps) in Hc.
    apply lookup_ge_None in Hc. now rewrite Hc.
Qed.

(** The draws found after the walk at the pointers walked are the ones
    [walk_shares] lists. *)
Lemma allocate_walk_shares (sorted : list nat) (a : Q)
      (comps : list PowerComponent) :
  List.NoDup sorted ->
  Forall (fun p => is_Some (comps !! p)) sorted ->
  map (ptr_current_power (allocate_walk sorted a comps)) sorted
  = walk_shares (map (ptr_nominal_power comps) sorted) a.
Proof.
  revert a comps. induction sorted as [| p rest IH]; intros a comps Hnd Hval.
  - reflexivity.
  - apply List.NoDup_cons_iff in Hnd. destruct Hnd as [Hp Hnd].
    apply Forall_cons in Hval. destruct Hval as [[c Hc] Hval].
    assert (Hlt : (p < length comps)%nat) by now apply lookup_lt_Some in Hc.
    assert (Hrest : forall x, Forall (fun q => is_Some (<[p := x]> comps !! q))
                                     rest).
    { intros x. eapply Forall_impl; [exact Hval |]. simpl.
      intros q Hq. apply lookup_lt_is_Some. rewrite length_insert.
      now apply lookup_lt_is_Some. }
    assert (Hnom : forall x,
               map (ptr_nominal_power (<[p := x]> comps)) rest
               = map (ptr_nominal_power comps) rest).
    { intros x. apply map_ext_in. intros q Hq. unfold ptr_nominal_power.
      rewrite list_lookup_insert_ne; [reflexivity |]. intros ->. tauto. }
    assert (Hn : ptr_nominal_power comps p = nominal_power c).
    { unfold ptr_nominal_power. now rewrite Hc. }
    simpl. rewrite Hc, Hn.
    destruct (float_ge a (nominal_power c)).
    + rewrite IH by auto. rewrite Hnom. f_equal.
      unfold ptr_current_power.
      rewrite allocate_walk_lookup_other by assumption.
      now rewrite list_lookup_insert_eq by assumption.
    + rewrite IH by auto. rewrite Hnom. f_equal.
      unfold ptr_current_power.
      rewrite allocate_walk_lookup_other by assumption.
      now rewrite list_lookup_insert_eq by assumption.
Qed.

(** ** The draws assigned along the walk *)

Lemma Qsum_nonneg (l : list Q) : Forall (fun q => 0 <= q) l -> 0 <= Qsum l.
Proof. induction 1; simpl; lra. Qed.

Lemma Qsum_Permutation (l1 l2 : list Q) :
  Permutation l1 l2 -> Qsum l1 == Qsum l2.
Proof.
  induction 1; simpl; lra.
Qed.

Lemma walk_shares_length (ns : list Q) (a : Q) :
  length (walk_shares ns a) = length ns.
Proof.
  revert a. induction ns as [| n ns IH]; intros a; simpl; [reflexivity |].
  destruct (float_ge a n); simpl; now rewrite IH.
Qed.





(** ** The pointers collected by the first loop *)

Lemma collect_enabled_spec (base : nat) (comps : list PowerComponent)
      (p : nat) :
  In p (collect_enabled base comps) <->
  (base <= p)%nat /\
  exists c, comps !! (p - base)%nat = Some c /\ is_enabled c = true.
Proof.
  revert base. induction comps as [| c comps IH]; intros base; simpl.
  - split; [tauto | intros (_ & c & Hc & _); discriminate].
  - assert (Htail : In p (collect_enabled (S base) comps) <->
                    (base < p)%nat /\
                    exists c', (c :: comps) !! (p - base)%nat = Some c'
                               /\ is_enabled c' = true).
    { rewrite IH. split.
      - intros (Hle & c' & Hc' & He). split; [lia |]. exists c'.
        replace (p - base)%nat with (S (p - S base)) by lia. now split.
      - intros (Hlt & c' & Hc' & He). split; [lia |]. exists c'.
        replace (p - base)%nat with (S (p - S base)) in Hc' by lia.
        now split. }
    destruct (is_enabled c) eqn:Hen; simpl; rewrite Htail.
    + split.
      * intros [<- | (Hlt & H)]; [| split; [lia | exact H]].
        split; [lia |]. exists c. now rewrite Nat.sub_diag.
      * intros (Hle & H). destruct (decide (base = p)) as [-> | Hne];
          [now left | right; split; [lia | exact H]].
    + split.
      * intros (Hlt & H). split; [lia | exact H].
      * intros (Hle & c' & Hc' & He).
        destruct (decide (base = p)) as [-> | Hne].
        -- rewrite Nat.sub_diag in Hc'. simpl in Hc'. congruence.
        -- split; [lia |]. now exists c'.
Qed.

Lemma collect_enabled_NoDup (base : nat) (comps : list PowerComponent) :
  List.NoDup (collect_enabled base comps).
Proof.
  revert base. induction comps as [| c comps IH]; intros base; simpl.
  - constructor.
  - destruct (is_enabled c); [| apply IH].
    constructor; [| apply IH].
    rewrite collect_enabled_spec. lia.
Qed.

Lemma collect_enabled_map {B : Type} (f : PowerComponent -> B) (d : B)
      (pre comps : list PowerComponent) :
  map (fun p => match (pre ++ comps) !! p with Some c => f c | None => d end)
      (collect_enabled (length pre) comps)
  = map f (List.filter is_enabled comps).
Proof.
  revert pre. induction comps as [| c comps IH]; intros pre; simpl.
  - reflexivity.
  - specialize (IH (pre ++ [c])).
    rewrite <- app_assoc, length_app in IH. simpl in IH.
    rewrite Nat.add_1_r in IH.
    destruct (is_enabled c); simpl; [| exact IH].
    rewrite IH. f_equal. now rewrite list_lookup_middle.
Qed.

(** Whatever order the sort chooses, the nominal powers met along the walk
    add up to the demand of the enabled components. *)
Lemma sorted_demand (comps : list PowerComponent) (sorted : list nat) :
  Permutation (collect_enabled 0 comps) sorted ->
  Qsum (map (ptr_nominal_power comps) sorted) == enabled_demand comps.
Proof.
  intros Hperm. unfold enabled_demand.
  rewrite <- (collect_enabled_map nominal_power 0 [] comps). simpl.
  apply Qsum_Permutation. apply Permutation_map. now symmetry.
Qed.

(** ** The allocator *)

Lemma map_eq_Forall {A B : Type} (f g : A -> B) (l : list A) :
  map f l = map g l -> Forall (fun x => f x = g x) l.
Proof.
  induction l as [| x l IH]; simpl; intros H; [constructor |].
  injection H as Hx Hl. constructor; auto.
Qed.


(** What the contract of the sort gives about the walk order. *)
Lemma sorted_components_facts (comps : list PowerComponent)
      (sorted : list nat) :
  std_sort_post (by_priority comps) (collect_enabled 0 comps) sorted ->
  (forall p, In p sorted <->
             exists c, comps !! p = Some c /\ is_enabled c = true) /\
  List.NoDup sorted /\
  StronglySorted
    (fun a b => (priority_value (ptr_priority comps a)
                 <= priority_value (ptr_priority comps b))%nat) sorted.
Proof.
  intros [Hperm Hsorted]. repeat split.
  - intros Hin. apply (Permutation_in _ (Permutation_sym Hperm)) in Hin.
    apply collect_enabled_spec in Hin. rewrite Nat.sub_0_r in Hin. tauto.
  - intros H. apply (Permutation_in _ Hperm).
    apply collect_enabled_spec. rewrite Nat.sub_0_r. split; [lia | exact H].
  - apply (Permutation_NoDup Hperm), collect_enabled_NoDup.
  - clear Hperm. induction Hsorted as [| a l Hl IH Ha]; constructor.
    + exact IH.
    + eapply Forall_impl; [exact Ha |]. simpl. intros b Hb.
      unfold by_priority, ComponentPriority_ltb in Hb.
      now apply Nat.ltb_ge in Hb.
Qed.

Lemma ptr_nominal_power_nonneg (comps : list PowerComponent) (p : nat) :
  Forall (fun c => 0 <= nominal_power c) comps ->
  0 <= ptr_nominal_power comps p.
Proof.
  intros H. unfold ptr_nominal_power.
  destruct (comps !! p) as [c |] eqn:Hc; [| lra].
  rewrite Forall_forall in H. apply H.
  apply list_elem_of_lookup. now exists p.
Qed.


(** Two orders the sort may produce for the initial registry: the one that
    keeps registry order among equal priorities, and one that walks the
    watchdog before communication. *)
Lemma initial_walk_post :
  std_sort_post (by_priority initializeComponents)
                (collect_enabled 0 initializeComponents)
                [0; 1; 2; 3; 4; 5; 7; 6]%nat.
Proof.
  split.
  - simpl. do 6 apply perm_skip. apply perm_swap.
  - repeat constructor.
Qed.

Lemma watchdog_first_post :
  std_sort_post (by_priority initializeComponents)
                (collect_enabled 0 initializeComponents)
                [1; 0; 2; 3; 4; 5; 7; 6]%nat.
Proof.
  split.
  - simpl. etransitivity; [apply perm_swap |].
    do 6 apply perm_skip. apply perm_swap.
  - repeat constructor.
Qed.



(** The initial registry with 60 W: communication, watchdog and navigation
    are served in full, the motors get the remaining 15 W, the rest 0. *)
Example allocate_walk_60 :
  map current_power
      (allocate_walk [0; 1; 2; 3; 4; 5; 7; 6]%nat 60 initializeComponents)
  = [15; 5; 25; 15; 0; 0; 0; 0].
Proof. reflexivity. Qed.

(** The contract of [std::sort] alone does not fix the order of equal
    priorities: it admits an order of the initial registry in which the
    watchdog (entry 1) comes before communication (entry 0), and a walk in
    that order under 10 W would feed the watchdog first.  The sort the
    program runs does not return that order: on a short range it is an
    insertion sort, treated below. *)
Lemma sort_contract_admits_unstable_order :
  let comps := initializeComponents in
  let sorted := [1; 0; 2; 3; 4; 5; 7; 6]%nat in
  std_sort_post (by_priority comps) (collect_enabled 0 comps) sorted /\
  ptr_priority comps 0 = ptr_priority comps 1 /\
  position 1 sorted = 0%nat /\ position 0 sorted = 1%nat /\
  ~ stable_walk comps sorted /\
  map current_power (allocate_walk sorted 10 comps)
  = [5; 5; 0; 0; 0; 0; 0; 0].
Proof.
  cbv zeta. split; [| repeat split].
  - exact watchdog_first_post.
  - intros H. specialize (H 0%nat 1%nat). simpl in H.
    assert (1 < 0)%nat; [apply H; auto; lia | lia].
Qed.

Lemma sorted_position (R : nat -> nat -> Prop) (l : list nat) (i j : nat) :
  StronglySorted R l -> In i l -> In j l ->
  (position j l < position i l)%nat -> R j i.
Proof.
  intros Hsorted. induction Hsorted as [| a l' Hl IH Ha]; simpl; [tauto |].
  intros Hi Hj Hpos.
  destruct (Nat.eqb_spec a j) as [-> | Hnj].
  - destruct (Nat.eqb_spec j i) as [-> | Hni]; [lia |].
    destruct Hi as [Hi | Hi]; [congruence |].
    rewrite Forall_forall in Ha. apply Ha. now apply list_elem_of_In.
  - destruct (Nat.eqb_spec a i) as [-> | Hni]; [lia |].
    apply IH; [tauto | tauto | lia].
Qed.

Lemma position_inj (l : list nat) (i j : nat) :
  In i l -> In j l -> position i l = position j l -> i = j.
Proof.
  induction l as [| a l IH]; simpl; [tauto |].
  intros Hi Hj.
  destruct (Nat.eqb_spec a i) as [Hi' | Hni];
    destruct (Nat.eqb_spec a j) as [Hj' | Hnj]; try lia.
  intros H. apply IH; [tauto | tauto | lia].
Qed.

(** Whatever order meets the contract of the sort, the allocation walk
    visits exactly the enabled components, each once, and a component of
    smaller priority value is walked before every component of larger
    priority value. *)
Lemma walk_order_by_priority (comps : list PowerComponent)
      (sorted_components : list nat) :
  std_sort_post (by_priority comps) (collect_enabled 0 comps)
                sorted_components ->
  Permutation (collect_enabled 0 comps) sorted_components /\
  List.NoDup sorted_components /\
  (forall p, In p sorted_components <->
             exists c, comps !! p = Some c /\ is_enabled c = true) /\
  (forall i j : nat,
      In i sorted_components -> In j sorted_components ->
      (priority_value (ptr_priority comps i)
       < priority_value (ptr_priority comps j))%nat ->
      (position i sorted_components < position j sorted_components)%nat).
Proof.
  intros Hsort.
  destruct (sorted_components_facts comps sorted_components Hsort)
    as (Hin & Hnd & Hasc).
  split; [exact (proj1 Hsort) |]. split; [exact Hnd |].
  split; [exact Hin |].
  intros i j Hi Hj Hlt.
  destruct (Nat.lt_total (position i sorted_components)
                         (position j sorted_components)) as [H | [H | H]].
  - exact H.
  - apply position_inj in H; [| assumption | assumption]. subst. lia.
  - pose proof (sorted_position _ _ _ _ Hasc Hi Hj H) as Hle. simpl in Hle.
    lia.
Qed.

(** On the order that puts the watchdog first, the navigation unit (HIGH)
    is still walked after both CRITICAL entries. *)
Example walk_order_by_priority_watchdog_first :
  (position 0 [1; 0; 2; 3; 4; 5; 7; 6] < position 2 [1; 0; 2; 3; 4; 5; 7; 6])%nat.
Proof.
  refine (proj2 (proj2 (proj2
            (walk_order_by_priority initializeComponents
               [1; 0; 2; 3; 4; 5; 7; 6]%nat _))) 0%nat 2%nat _ _ _).
  - exact watchdog_first_post.
  - simpl. tauto.
  - simpl. tauto.
  - vm_compute. lia.
Qed.

(** ** The sort the program runs *)

Lemma StronglySorted_snoc {A : Type} (R : A -> A -> Prop) (l : list A) (a : A) :
  StronglySorted R l -> Forall (fun e => R e a) l ->
  StronglySorted R (l ++ [a]).
Proof.
  induction 1 as [| x l Hl IH Hx]; intros Ha; simpl.
  - repeat constructor.
  - apply Forall_cons in Ha. destruct Ha as [Hxa Ha].
    constructor; [now apply IH |].
    apply Forall_app. split; [exact Hx | now constructor].
Qed.

Lemma StronglySorted_rev {A : Type} (R : A -> A -> Prop) (l : list A) :
  StronglySorted R l -> StronglySorted (fun a b => R b a) (rev l).
Proof.
  induction 1 as [| x l Hl IH Hx]; simpl; [constructor |].
  apply StronglySorted_snoc; [exact IH |].
  apply Forall_forall. intros e He. rewrite Forall_forall in Hx.
  apply Hx. apply list_elem_of_In. apply in_rev.
  now apply list_elem_of_In.
Qed.

Lemma StronglySorted_weaken {A : Type} (R R' : A -> A -> Prop) (l : list A) :
  (forall a b, R a b -> R' a b) ->
  StronglySorted R l -> StronglySorted R' l.
Proof.
  intros HR. induction 1 as [| x l Hl IH Hx]; constructor; [exact IH |].
  eapply Forall_impl; [exact Hx |]. auto.
Qed.

Lemma unguarded_linear_insert_Permutation {A : Type} (comp : A -> A -> bool)
      (val : A) (before : list A) :
  Permutation (val :: before) (unguarded_linear_insert comp val before).
Proof.
  induction before as [| next rest IH]; simpl; [reflexivity |].
  destruct (comp val next); [| reflexivity].
  rewrite perm_swap. now apply perm_skip.
Qed.

Lemma insertion_sort_step_Permutation {A : Type} (comp : A -> A -> bool)
      (sorted_part : list A) (val : A) :
  Permutation (val :: sorted_part) (insertion_sort_step comp sorted_part val).
Proof.
  unfold insertion_sort_step. destruct sorted_part as [| first rest];
    [reflexivity |].
  destruct (comp val first); [reflexivity |].
  rewrite <- Permutation_rev, <- unguarded_linear_insert_Permutation.
  apply perm_skip. apply Permutation_rev.
Qed.

Lemma std_insertion_sort_Permutation {A : Type} (comp : A -> A -> bool)
      (range : list A) :
  Permutation range (std_insertion_sort comp range).
Proof.
  unfold std_insertion_sort. destruct range as [| first rest]; [constructor |].
  change (first :: rest) with ([first] ++ rest).
  generalize [first] as acc. induction rest as [| x rest IH]; intros acc;
    simpl.
  - now rewrite app_nil_r.
  - rewrite <- IH. rewrite <- insertion_sort_step_Permutation.
    symmetry. apply Permutation_middle.
Qed.

Section SortByKey.
Context (key : nat -> nat).

Let comp (a b : nat) : bool := Nat.ltb (key a) (key b).

(** Ordered by key, and by address among equal keys. *)
Let before_in_walk (a b : nat) : Prop :=
  (key a < key b)%nat \/ (key a = key b /\ (a < b)%nat).

Lemma unguarded_linear_insert_sorted (val : nat) (before : list nat) :
  StronglySorted (fun a b => before_in_walk b a) before ->
  Forall (fun e => (e < val)%nat) before ->
  StronglySorted (fun a b => before_in_walk b a)
                 (unguarded_linear_insert comp val before).
Proof.
  induction 1 as [| next rest Hrest IH Hnext]; intros Hlt; simpl.
  - repeat constructor.
  - apply Forall_cons in Hlt. destruct Hlt as [Hn Hlt].
    unfold comp at 1. destruct (Nat.ltb_spec (key val) (key next)) as [H | H].
    + constructor; [now apply IH |].
      apply (Permutation_Forall
               (unguarded_linear_insert_Permutation comp val rest)).
      constructor; [now left | exact Hnext].
    + constructor; [now constructor |].
      assert (Hnv : before_in_walk next val).
      { unfold before_in_walk. lia. }
      constructor; [exact Hnv |].
      rewrite Forall_forall in Hnext, Hlt. apply Forall_forall.
      intros e He. specialize (Hnext e He). specialize (Hlt e He).
      unfold before_in_walk in *. lia.
Qed.

Lemma insertion_sort_step_sorted (sorted_part : list nat) (val : nat) :
  StronglySorted before_in_walk sorted_part ->
  Forall (fun e => (e < val)%nat) sorted_part ->
  StronglySorted before_in_walk (insertion_sort_step comp sorted_part val).
Proof.
  intros Hs Hlt. unfold insertion_sort_step.
  destruct sorted_part as [| first rest]; [repeat constructor |].
  unfold comp at 1. destruct (Nat.ltb_spec (key val) (key first)) as [H | H].
  - constructor; [exact Hs |].
    apply StronglySorted_inv in Hs. destruct Hs as [_ Hfirst].
    constructor; [now left |].
    eapply Forall_impl; [exact Hfirst |]. simpl. intros e He.
    unfold before_in_walk in *. lia.
  - apply (StronglySorted_rev (fun a b => before_in_walk b a)).
    apply unguarded_linear_insert_sorted.
    + now apply StronglySorted_rev.
    + apply Forall_forall. intros e He. rewrite Forall_forall in Hlt.
      apply Hlt. apply list_elem_of_In. apply list_elem_of_In in He.
      now apply in_rev in He.
Qed.

Lemma std_insertion_sort_sorted (range : list nat) :
  StronglySorted lt range ->
  StronglySorted before_in_walk (std_insertion_sort comp range).
Proof.
  unfold std_insertion_sort. destruct range as [| first rest];
    [constructor |].
  intros Hs. apply StronglySorted_inv in Hs. destruct Hs as [Hrest Hfirst].
  assert (Hacc : StronglySorted before_in_walk [first])
    by repeat constructor.
  assert (Hbelow : Forall (fun b => Forall (fun a => (a < b)%nat) [first]) rest).
  { eapply Forall_impl; [exact Hfirst |]. simpl. intros b Hb.
    now repeat constructor. }
  clear Hfirst. revert Hacc Hbelow. generalize [first] as acc.
  induction Hrest as [| x rest Hrest IH Hx]; intros acc Hacc Hbelow; simpl.
  - exact Hacc.
  - apply Forall_cons in Hbelow. destruct Hbelow as [Hxacc Hbelow].
    apply IH.
    + now apply insertion_sort_step_sorted.
    + rewrite Forall_forall in Hbelow, Hx. apply Forall_forall.
      intros b Hb.
      apply (Permutation_Forall (insertion_sort_step_Permutation comp acc x)).
      constructor; [now apply Hx | now apply Hbelow].
Qed.
End SortByKey.

Lemma collect_enabled_increasing (base : nat) (comps : list PowerComponent) :
  StronglySorted lt (collect_enabled base comps).
Proof.
  revert base. induction comps as [| c comps IH]; intros base; simpl.
  - constructor.
  - destruct (is_enabled c); [| apply IH].
    constructor; [apply IH |].
    apply Forall_forall. intros p Hp. apply list_elem_of_In in Hp.
    apply collect_enabled_spec in Hp. lia.
Qed.

(** On the pointers of the enabled components, taken in registry order,
    the insertion sort returns them by priority and, within one priority,
    by address. *)
Lemma std_insertion_sort_by_priority (comps : list PowerComponent) :
  let sorted_components :=
    std_insertion_sort (by_priority comps) (collect_enabled 0 comps) in
  std_sort_post (by_priority comps) (collect_enabled 0 comps)
                sorted_components /\
  stable_walk comps sorted_components.
Proof.
  intros sorted_components.
  pose (key := fun p => priority_value (ptr_priority comps p)).
  assert (Hsorted : StronglySorted
            (fun a b => (key a < key b)%nat \/ (key a = key b /\ (a < b)%nat))
            sorted_components).
  { apply (std_insertion_sort_sorted key). apply collect_enabled_increasing. }
  split; [split |].
  - apply std_insertion_sort_Permutation.
  - eapply StronglySorted_weaken; [| exact Hsorted].
    intros a b Hab. unfold by_priority, ComponentPriority_ltb.
    apply Nat.ltb_ge. unfold key in Hab. lia.
  - intros i j Hij Hi Hj Hprio.
    destruct (Nat.lt_trichotomy (position i sorted_components)
                                (position j sorted_components))
      as [Hlt | [Heq | Hgt]]; [exact Hlt | |].
    + apply position_inj in Heq; [lia | exact Hi | exact Hj].
    + apply (sorted_position _ _ _ _ Hsorted Hi Hj) in Hgt.
      unfold key in Hgt. rewrite Hprio in Hgt. lia.
Qed.

Lemma collect_enabled_length (base : nat) (comps : list PowerComponent) :
  (length (collect_enabled base comps) <= length comps)%nat.
Proof.
  revert base. induction comps as [| c comps IH]; intros base; simpl;
    [lia |].
  specialize (IH (S base)). destruct (is_enabled c); simpl; lia.
Qed.

(** C5. The sort the program runs on the enabled components is stable.
    [std::sort] hands a range of at most 16 elements to its insertion
    sort; on the pointers of the enabled components, collected in registry
    order, that sort returns an order that meets the postcondition of
    [std::sort] and in which two enabled components of equal priority keep
    their registry order.  This holds for every content of the registry
    with at most 16 enabled components and for every budget; the registry
    of a reachable state has 8 entries ([reachable_sort_is_short]). *)
Theorem allocation_walk_is_stable (pm : PowerManager) :
  (length (collect_enabled 0 (components_ pm)) <= S_threshold)%nat ->
  exists sorted_components,
    std_sort (by_priority (components_ pm))
             (collect_enabled 0 (components_ pm)) = Some sorted_components /\
    allocatePower_libstdcxx pm
    = Some (allocatePower_in_order sorted_components pm) /\
    allocatePower pm (allocatePower_in_order sorted_components pm) /\
    stable_walk (components_ pm) sorted_components /\
    forall i j ci cj,
      components_ pm !! i = Some ci -> components_ pm !! j = Some cj ->
      is_enabled ci = true -> is_enabled cj = true ->
      priority ci = priority cj -> (i < j)%nat ->
      (position i sorted_components < position j sorted_components)%nat.
Proof.
  intros Hlen.
  destruct (std_insertion_sort_by_priority (components_ pm))
    as [Hpost Hstable].
  set (sorted_components :=
         std_insertion_sort (by_priority (components_ pm))
                            (collect_enabled 0 (components_ pm))) in *.
  assert (Hsort : std_sort (by_priority (components_ pm))
                           (collect_enabled 0 (components_ pm))
                  = Some sorted_components).
  { unfold std_sort. apply Nat.leb_le in Hlen. now rewrite Hlen. }
  exists sorted_components. split; [exact Hsort |]. split; [| split; [| split]].
  - unfold allocatePower_libstdcxx. now rewrite Hsort.
  - exists sorted_components. now split.
  - exact Hstable.
  - intros i j ci cj Hi Hj Hei Hej Hprio Hij.
    destruct (sorted_components_facts _ _ Hpost) as (Hin & _ & _).
    apply Hstable; [exact Hij | | |].
    + apply Hin. now exists ci.
    + apply Hin. now exists cj.
    + unfold ptr_priority. now rewrite Hi, Hj.
Qed.

(** C5 on an instance: the initial registry under 10 W of sun.
    Communication and the watchdog, both CRITICAL, are walked in registry
    order, so communication takes the 10 W. *)
Lemma allocation_walk_is_stable_witness :
  let pm := solarCallback 10 (PowerManager_new 0) in
  exists sorted_components,
    std_sort (by_priority (components_ pm))
             (collect_enabled 0 (components_ pm)) = Some sorted_components /\
    allocatePower_libstdcxx pm
    = Some (allocatePower_in_order sorted_components pm) /\
    allocatePower pm (allocatePower_in_order sorted_components pm) /\
    stable_walk (components_ pm) sorted_components /\
    forall i j ci cj,
      components_ pm !! i = Some ci -> components_ pm !! j = Some cj ->
      is_enabled ci = true -> is_enabled cj = true ->
      priority ci = priority cj -> (i < j)%nat ->
      (position i sorted_components < position j sorted_components)%nat.
Proof.
  apply (allocation_walk_is_stable (solarCallback 10 (PowerManager_new 0))).
  apply Nat.leb_le. reflexivity.
Defined.

Example allocatePower_libstdcxx_10 :
  std_sort (by_priority initializeComponents)
           (collect_enabled 0 initializeComponents)
  = Some [0; 1; 2; 3; 4; 5; 7; 6]%nat /\
  option_map (fun pm => map current_power (components_ pm))
             (allocatePower_libstdcxx (solarCallback 10 (PowerManager_new 0)))
  = Some [10; 0; 0; 0; 0; 0; 0; 0].
Proof. split; reflexivity. Qed.

(** ** What the entry points keep *)

Lemma Forall_transfer {A B : Type} (f : A -> B) (P : A -> Prop)
      (l l' : list A) :
  (forall x y, f x = f y -> P x -> P y) ->
  map f l = map f l' -> Forall P l -> Forall P l'.
Proof.
  intros Hf. revert l'. induction l as [| x l IH]; intros [| y l'] Hmap Hl;
    simpl in Hmap; try discriminate; [constructor |].
  injection Hmap as Hxy Hmap. apply Forall_cons in Hl. destruct Hl as [Hx Hl].
  constructor; [now apply (Hf x) | now apply IH].
Qed.

Lemma adjustComponentsForMode_components (m : PowerMode) (pm : PowerManager) :
  components_ (adjustComponentsForMode m pm)
  = map (adjust_entry m) (components_ pm).
Proof. destruct m; reflexivity. Qed.

(** A mode transition writes [is_enabled] and nothing else in an entry. *)
Lemma adjust_entry_keeps (m : PowerMode) (c : PowerComponent) :
  catalog_entry (adjust_entry m c) = catalog_entry c /\
  current_power (adjust_entry m c) = current_power c.
Proof.
  destruct m; simpl.
  - easy.
  - unfold adjust_LOW_POWER.
    destruct (ComponentPriority_eqb (priority c) LOW); simpl;
      destruct (String.eqb (name c) "cameras"); easy.
  - unfold adjust_HIBERNATION.
    destruct (negb _ && negb _); easy.
  - apply adjust_EMERGENCY_catalog.
Qed.

Lemma switchMode_keeps {B : Type} (f : PowerComponent -> B) (m : PowerMode)
      (pm : PowerManager) :
  (forall c c', catalog_entry c' = catalog_entry c ->
                current_power c' = current_power c -> f c' = f c) ->
  map f (components_ (switchMode m pm)) = map f (components_ pm).
Proof.
  intros Hf.
  rewrite switchMode_components, adjustComponentsForMode_components.
  rewrite map_map. apply map_ext. intros c.
  destruct (adjust_entry_keeps m c). now apply Hf.
Qed.

(** The motion command writes [current_power] and nothing else. *)
Lemma set_motors_power_map {B : Type} (f : PowerComponent -> B) (w : Q)
      (comps : list PowerComponent) :
  (forall w c, f (set_current_power w c) = f c) ->
  map f (set_motors_power w comps) = map f comps.
Proof.
  intros Hf. induction comps as [| c comps IH]; simpl; [reflexivity |].
  destruct (String.eqb (name c) "motors"); simpl; [now rewrite Hf |].
  now rewrite IH.
Qed.

Lemma managementLoop_decide_components (pm : PowerManager) :
  components_ (managementLoop_decide pm) = components_ pm \/
  exists m, components_ (managementLoop_decide pm)
            = components_ (switchMode m pm).
Proof.
  unfold managementLoop_decide.
  destruct (negb _); [right | now left].
  eexists. rewrite !switchMode_components, !adjustComponentsForMode_components.
  reflexivity.
Qed.

(** Any field of an entry that neither [set_current_power] nor
    [set_is_enabled] touches is the same after every step. *)
Lemma step_keeps {B : Type} (f : PowerComponent -> B)
      (pm pm' : PowerManager) (ev : Event) :
  (forall w c, f (set_current_power w c) = f c) ->
  (forall c c', catalog_entry c' = catalog_entry c ->
                current_power c' = current_power c -> f c' = f c) ->
  step pm ev pm' ->
  map f (components_ pm') = map f (components_ pm).
Proof.
  intros Hw He Hstep. destruct Hstep; simpl; try reflexivity.
  - now apply set_motors_power_map.
  - destruct H as (pm_alloc & (sorted & _ & ->) & ->). simpl.
    rewrite allocate_walk_map by exact Hw.
    destruct (managementLoop_decide_components pm) as [-> | [m ->]];
      [reflexivity | now apply switchMode_keeps].
  - unfold setMode. destruct (negb _); [now apply switchMode_keeps | easy].
Qed.

(** The registry keeps the catalog it was built from. *)
Lemma run_catalog (pm0 pm : PowerManager) (evs : list Event) :
  run pm0 evs pm ->
  map catalog_entry (components_ pm) = map catalog_entry (components_ pm0).
Proof.
  induction 1 as [| pm0 evs pm1 ev pm2 _ IH Hstep]; [reflexivity |].
  rewrite <- IH. apply (step_keeps catalog_entry _ _ ev); auto.
Qed.

(** The registry never grows or shrinks. *)
Lemma reachable_registry_size (pm : PowerManager) :
  reachable pm -> length (components_ pm) = 8%nat.
Proof.
  intros (now & evs & Hrun). apply run_catalog in Hrun.
  apply (f_equal (@length _)) in Hrun. now rewrite !length_map in Hrun.
Qed.

(** So every sort the manager runs is on at most eight pointers, below the
    threshold of the insertion sort. *)
Lemma reachable_sort_is_short (pm : PowerManager) :
  reachable pm ->
  (length (collect_enabled 0 (components_ pm)) <= S_threshold)%nat.
Proof.
  intros Hreach.
  pose proof (collect_enabled_length 0 (components_ pm)) as Hlen.
  rewrite (reachable_registry_size pm Hreach) in Hlen.
  unfold S_threshold. lia.
Qed.

(** ** CRITICAL components stay enabled *)

Lemma catalog_no_critical_cameras (comps : list PowerComponent) :
  map catalog_entry comps = map catalog_entry initializeComponents ->
  Forall (fun c => priority c = CRITICAL -> name c <> "cameras"%string) comps.
Proof.
  intros Hcat.
  apply (Forall_transfer catalog_entry _ initializeComponents comps).
  - intros x y Hxy Hx Hy. unfold catalog_entry in Hxy.
    injection Hxy as Hn Hp _ _. rewrite <- Hn. apply Hx. congruence.
  - now symmetry.
  - repeat constructor; simpl; congruence.
Qed.

(** NORMAL and EMERGENCY enable the CRITICAL entries; LOW_POWER and
    HIBERNATION do not disable one, LOW_POWER because no CRITICAL entry is
    the one named cameras. *)
Lemma adjust_entry_critical (m : PowerMode) (c : PowerComponent) :
  (priority c = CRITICAL -> name c <> "cameras"%string) ->
  critical_enabled c -> critical_enabled (adjust_entry m c).
Proof.
  unfold critical_enabled. intros Hcam Hen.
  destruct c as [n p nom cur en ess]. simpl in *.
  destruct m; simpl.
  - easy.
  - unfold adjust_LOW_POWER. simpl.
    destruct p; unfold ComponentPriority_eqb; simpl;
      destruct (String.eqb_spec n "cameras"); simpl;
      try discriminate; intros _; auto.
    exfalso. now apply Hcam.
  - unfold adjust_HIBERNATION. simpl.
    destruct p; unfold ComponentPriority_eqb; simpl;
      try discriminate; auto.
    all: destruct (negb ess); simpl; discriminate.
  - unfold adjust_EMERGENCY. simpl.
    destruct p; unfold ComponentPriority_eqb; simpl; auto; discriminate.
Qed.

Lemma critical_enabled_keeps (l l' : list PowerComponent) :
  map (fun c => (priority c, is_enabled c)) l
  = map (fun c => (priority c, is_enabled c)) l' ->
  Forall critical_enabled l -> Forall critical_enabled l'.
Proof.
  apply Forall_transfer. unfold critical_enabled.
  intros x y Hxy Hx Hy. injection Hxy as Hp He. rewrite <- He. apply Hx.
  congruence.
Qed.

Lemma switchMode_critical (m : PowerMode) (pm : PowerManager) :
  map catalog_entry (components_ pm) = map catalog_entry initializeComponents ->
  Forall critical_enabled (components_ pm) ->
  Forall critical_enabled (components_ (switchMode m pm)).
Proof.
  intros Hcat Hen.
  rewrite switchMode_components, adjustComponentsForMode_components.
  apply catalog_no_critical_cameras in Hcat.
  induction Hen as [| c comps Hc Hen IH]; simpl; [constructor |].
  apply Forall_cons in Hcat. destruct Hcat as [Hcam Hcat].
  constructor; [now apply adjust_entry_critical | now apply IH].
Qed.

Lemma step_critical (pm pm' : PowerManager) (ev : Event) :
  map catalog_entry (components_ pm) = map catalog_entry initializeComponents ->
  Forall critical_enabled (components_ pm) ->
  step pm ev pm' ->
  Forall critical_enabled (components_ pm').
Proof.
  intros Hcat Hen Hstep. destruct Hstep; simpl; try exact Hen.
  - eapply critical_enabled_keeps; [| exact Hen]. symmetry.
    now apply set_motors_power_map.
  - destruct H as (pm_alloc & (sorted & _ & ->) & ->). simpl.
    eapply critical_enabled_keeps;
      [symmetry; now apply allocate_walk_map |].
    unfold managementLoop_decide. destruct (negb _); [| exact Hen].
    now apply switchMode_critical.
  - unfold setMode. destruct (negb _); [| exact Hen].
    now apply switchMode_critical.
Qed.

(** C10. In every reachable state the registry still holds the entries of
    the initial catalog (same names, priorities, nominal powers and
    essential flags, in the same order), so its CRITICAL entries are
    communication and fdir_watchdog, and every CRITICAL entry is
    enabled. *)
Theorem critical_components_always_enabled (pm : PowerManager) :
  reachable pm ->
  map catalog_entry (components_ pm) = map catalog_entry initializeComponents
  /\ Forall critical_enabled (components_ pm).
Proof.
  intros (now & evs & Hrun).
  remember (PowerManager_new now) as pm0 eqn:E.
  induction Hrun as [pm0 | pm0 evs pm1 ev pm2 Hrun IH Hstep].
  - subst. split; [reflexivity |]. repeat constructor.
  - destruct (IH E) as [Hcat Hen]. split.
    + rewrite <- Hcat. apply (step_keeps catalog_entry _ _ ev); auto.
    + now apply (step_critical pm1 _ ev).
Qed.

(** C10 on an instance: a run that goes through EMERGENCY, HIBERNATION,
    LOW_POWER and back to
    NORMAL. *)
Lemma critical_components_always_enabled_witness :
  Forall critical_enabled
         (components_
            (fold_left handle
               [BatteryVoltage 24.5; ManagementTick; BatteryVoltage 26;
                ManagementTick; SolarPower 10; BatteryVoltage 25.5;
                ManagementTick; SolarPower 100; BatteryVoltage 27;
                ManagementTick]
               (PowerManager_new 0))).
Proof.
  refine (proj2 (critical_components_always_enabled _ _)).
  exists 0. eexists. apply run_handle.
Defined.

(** ** Bounds on the assigned power *)

(** C1 as stated fails.  Two reachable states break
    [0 <= current_power <= nominal_power]:
    a motion command with [linear.x = 2] sets the motors to 90 W against a
    nominal 50 W, and a solar sample of -5 W followed by a management tick
    assigns -5 W to communication. *)
Lemma current_power_bound_counterexample :
  (let pm := handle (PowerManager_new 0) (CmdVel 2 0) in
   reachable pm /\
   exists c, In c (components_ pm) /\ name c = "motors"%string /\
             current_power c = 90 /\ nominal_power c = 50 /\
             ~ within_nominal c) /\
  (let pm := handle (handle (PowerManager_new 0) (SolarPower (-5)))
                    ManagementTick in
   reachable pm /\
   exists c, In c (components_ pm) /\ name c = "communication"%string /\
             current_power c = -5 /\
             ~ within_nominal c).
Proof.
  split; cbv zeta.
  - split.
    + exists 0, [CmdVel 2 0]. apply run_handle.
    + exists (mkPowerComponent "motors" HIGH 50 90 true true).
      split; [vm_compute; tauto |]. repeat split.
      unfold within_nominal. simpl. lra.
  - split.
    + exists 0, [SolarPower (-5); ManagementTick]. apply run_handle.
    + exists (mkPowerComponent "communication" CRITICAL 15 (-5) true true).
      split; [vm_compute; tauto |]. repeat split.
      unfold within_nominal. simpl. lra.
Qed.

(** The allocator keeps every entry within its nominal power when the
    budget is not negative. *)
Lemma allocate_walk_within (sorted : list nat) (a : Q)
      (comps : list PowerComponent) :
  0 <= a -> Forall within_nominal comps ->
  Forall within_nominal (allocate_walk sorted a comps).
Proof.
  revert a comps. induction sorted as [| p rest IH]; intros a comps Ha Hin.
  - exact Hin.
  - simpl. destruct (comps !! p) as [c |] eqn:Hc; [| now apply IH].
    assert (Hcin : within_nominal c).
    { rewrite Forall_forall in Hin. apply Hin.
      apply list_elem_of_lookup. now exists p. }
    destruct Hcin as [Hc0 Hc1].
    destruct (float_ge a (nominal_power c)) eqn:E.
    + apply float_ge_spec in E. apply IH; [lra |].
      apply Forall_insert; [exact Hin |].
      unfold within_nominal. simpl. lra.
    + apply float_ge_false in E. apply IH; [lra |].
      apply Forall_insert; [exact Hin |].
      unfold within_nominal. simpl. lra.
Qed.

(** The motion command keeps the motors within a nominal 50 W when it asks
    for at most that. *)
Lemma set_motors_power_within (w : Q) (comps : list PowerComponent) :
  0 <= w -> w <= 50 ->
  Forall (fun c => name c = "motors"%string -> nominal_power c = 50) comps ->
  Forall within_nominal comps ->
  Forall within_nominal (set_motors_power w comps).
Proof.
  intros Hw0 Hw1 Hcat Hin.
  induction Hin as [| c comps Hc Hin IH]; simpl; [constructor |].
  apply Forall_cons in Hcat. destruct Hcat as [Hm Hcat].
  destruct (String.eqb_spec (name c) "motors") as [Hname | Hname].
  - constructor; [| exact Hin].
    unfold within_nominal. simpl. rewrite (Hm Hname). lra.
  - constructor; [exact Hc | now apply IH].
Qed.

Lemma catalog_motors_nominal (comps : list PowerComponent) :
  map catalog_entry comps = map catalog_entry initializeComponents ->
  Forall (fun c => name c = "motors"%string -> nominal_power c = 50) comps.
Proof.
  intros Hcat.
  apply (Forall_transfer catalog_entry _ initializeComponents comps).
  - intros x y Hxy Hx Hy. unfold catalog_entry in Hxy.
    injection Hxy as Hn _ Hnom _. rewrite <- Hnom. apply Hx. congruence.
  - now symmetry.
  - repeat constructor; simpl; intros H; try reflexivity; discriminate.
Qed.

Lemma within_nominal_keeps (l l' : list PowerComponent) :
  map (fun c => (nominal_power c, current_power c)) l
  = map (fun c => (nominal_power c, current_power c)) l' ->
  Forall within_nominal l -> Forall within_nominal l'.
Proof.
  apply Forall_transfer. unfold within_nominal.
  intros x y Hxy Hx. injection Hxy as Hn Hc. now rewrite <- Hn, <- Hc.
Qed.

Lemma switchMode_within (m : PowerMode) (pm : PowerManager) :
  Forall within_nominal (components_ pm) ->
  Forall within_nominal (components_ (switchMode m pm)).
Proof.
  apply within_nominal_keeps. symmetry. apply switchMode_keeps.
  intros c c' Hcat Hcur. unfold catalog_entry in Hcat.
  injection Hcat as _ _ Hnom _. now rewrite Hnom, Hcur.
Qed.

Lemma managementLoop_decide_solar (pm : PowerManager) :
  solar_generation (energy_state_ (managementLoop_decide pm))
  = solar_generation (energy_state_ pm).
Proof.
  unfold managementLoop_decide. destruct (negb _); [| reflexivity].
  now rewrite switchMode_solar_generation.
Qed.

Lemma step_within (pm pm' : PowerManager) (ev : Event) :
  benign ev ->
  map catalog_entry (components_ pm) = map catalog_entry initializeComponents ->
  0 <= solar_generation (energy_state_ pm) ->
  Forall within_nominal (components_ pm) ->
  step pm ev pm' ->
  0 <= solar_generation (energy_state_ pm')
  /\ Forall within_nominal (components_ pm').
Proof.
  intros Hev Hcat Hsun Hin Hstep. destruct Hstep; simpl in *.
  - now split.
  - now split.
  - split; [exact Hsun |].
    pose proof (Qabs_nonneg linear_x). pose proof (Qabs_nonneg angular_z).
    apply set_motors_power_within; try lra; [| exact Hin].
    now apply catalog_motors_nominal.
  - destruct H as (pm_alloc & (sorted & _ & ->) & ->). simpl.
    rewrite managementLoop_decide_solar. split; [exact Hsun |].
    apply allocate_walk_within; [exact Hsun |].
    unfold managementLoop_decide. destruct (negb _); [| exact Hin].
    now apply switchMode_within.
  - now split.
  - unfold setMode. destruct (negb _); [| now split].
    rewrite switchMode_solar_generation. split; [exact Hsun |].
    now apply switchMode_within.
Qed.

(** ** The margin in the motion-command bound *)

Section Rounding.
Variable rnd : Q -> Q.
Hypothesis rnd_error : binary32_rounding rnd.

Lemma rnd_near (q : Q) :
  -64 <= q -> q <= 64 ->
  -(1 # 100000) <= rnd q - q /\ rnd q - q <= 1 # 100000.
Proof.
  intros Hlo Hhi. apply Qabs_Qle_condition.
  assert (Hq : Qabs q <= 64) by (apply Qabs_Qle_condition; split; lra).
  eapply Qle_trans; [apply rnd_error |].
  assert (Heta : (1 # 2 ^ 150) <= 1 # 1000000) by (vm_compute; congruence).
  assert (Heps : (1 # 2 ^ 24) == 1 # 16777216) by reflexivity.
  rewrite Heps. lra.
Qed.

(** With the two rates inside [40 * |linear.x| + 20 * |angular.z| <= 39.99]
    the power written to the motors stays within their nominal 50 W after
    the six roundings of the computation. *)
Lemma motor_power_rounded_within (linear_x angular_z : Q) :
  40 * Qabs linear_x + 20 * Qabs angular_z <= 39.99 ->
  0 <= motor_power_rounded rnd linear_x angular_z /\
  motor_power_rounded rnd linear_x angular_z <= 50.
Proof.
  intros Hbound. unfold motor_power_rounded.
  pose proof (Qabs_nonneg linear_x) as Hx.
  pose proof (Qabs_nonneg angular_z) as Hz.
  set (ax := Qabs linear_x) in *. set (az := Qabs angular_z) in *.
  destruct (rnd_near ax) as [Hs1 Hs2]; [lra | lra |].
  set (speed := rnd ax) in *.
  destruct (rnd_near az) as [Ht1 Ht2]; [lra | lra |].
  set (angular := rnd az) in *.
  destruct (rnd_near (40 * speed)) as [Ha1 Ha2]; [lra | lra |].
  set (a := rnd (40 * speed)) in *.
  destruct (rnd_near (10 + a)) as [Hb1 Hb2]; [lra | lra |].
  set (b := rnd (10 + a)) in *.
  destruct (rnd_near (20 * angular)) as [Hc1 Hc2]; [lra | lra |].
  set (c := rnd (20 * angular)) in *.
  destruct (rnd_near (b + c)) as [Hr1 Hr2]; [lra | lra |].
  set (r := rnd (b + c)) in *.
  split; lra.
Qed.
End Rounding.

(** Exact arithmetic is the rounding that does nothing, and with it
    [motor_power_rounded] is the value [velocityCallback] writes. *)
Lemma motor_power_rounded_exact (linear_x angular_z : Q) :
  binary32_rounding (fun q => q) /\
  motor_power_rounded (fun q => q) linear_x angular_z
  = 10 + 40 * Qabs linear_x + 20 * Qabs angular_z.
Proof.
  split; [| reflexivity].
  intros q. setoid_replace (q - q) with 0 using relation Qeq by ring.
  change (Qabs 0) with 0.
  assert (0 <= Qabs q * (1 # 2 ^ 24))
    by (apply Qmult_le_0_compat; [apply Qabs_nonneg | vm_compute; congruence]).
  assert (0 <= 1 # 2 ^ 150) by (vm_compute; congruence).
  set (eta := 1 # 2 ^ 150) in *. set (err := Qabs q * (1 # 2 ^ 24)) in *.
  lra.
Qed.

(** A command inside the exact bound of 40 but outside the margin:
    [linear.x = 0.03], [angular.z = 1.94].  A rounding within the error of
    binary32 takes the result above 50. *)
Example motor_power_rounded_at_the_bound :
  40 * Qabs 0.03 + 20 * Qabs 1.94 <= 40 /\
  exists rnd : Q -> Q,
    binary32_rounding rnd /\ 50 < motor_power_rounded rnd 0.03 1.94.
Proof.
  split; [vm_compute; congruence |].
  exists (fun q => q + Qabs q * (1 # 2 ^ 24)). split.
  - intros q. setoid_replace (q + Qabs q * (1 # 2 ^ 24) - q)
      with (Qabs q * (1 # 2 ^ 24)) using relation Qeq by ring.
    assert (Herr : 0 <= Qabs q * (1 # 2 ^ 24))
      by (apply Qmult_le_0_compat;
          [apply Qabs_nonneg | vm_compute; congruence]).
    rewrite (Qabs_pos _ Herr).
    assert (0 <= 1 # 2 ^ 150) by (vm_compute; congruence).
    set (eta := 1 # 2 ^ 150) in *. set (err := Qabs q * (1 # 2 ^ 24)) in *.
    lra.
  - vm_compute. reflexivity.
Qed.

(** A rate that is NaN makes the motor power NaN, whatever the other rate;
    on two numbers the computation is the one of [velocityCallback]. *)
Lemma motor_power_float32_nan (other : float32) (linear_x angular_z : Q) :
  motor_power_float32 NaN other = NaN /\
  motor_power_float32 other NaN = NaN /\
  motor_power_float32 (Number linear_x) (Number angular_z)
  = Number (10 + 40 * Qabs linear_x + 20 * Qabs angular_z).
Proof. destruct other; repeat split. Qed.

(** C1 (amended). In every state reached from initialization by telemetry
    callbacks, management ticks, prediction ticks and mode changes in which
    every solar sample is a non-negative number and every motion command
    carries two rates that are numbers with
    [40 * |linear.x| + 20 * |angular.z| <= 39.99], every component has
    [0 <= current_power <= nominal_power].  The bound leaves 0.01 W below
    the motors' 50 W for the rounding of [motor_power]
    ([motor_power_rounded_within]); the allocator needs no margin, it only
    copies [nominal_power], subtracts it from a budget at least as large,
    or copies what is left of the budget. *)
Theorem current_power_within_nominal (now : Q) (evs : list Event)
        (pm : PowerManager) :
  Forall benign evs ->
  run (PowerManager_new now) evs pm ->
  Forall within_nominal (components_ pm).
Proof.
  intros Hevs Hrun.
  enough (H : 0 <= solar_generation (energy_state_ pm)
              /\ Forall within_nominal (components_ pm)) by apply H.
  remember (PowerManager_new now) as pm0 eqn:E.
  induction Hrun as [pm0 | pm0 evs pm1 ev pm2 Hrun IH Hstep].
  - subst. split; [simpl; lra |].
    repeat constructor; simpl; lra.
  - apply Forall_app in Hevs. destruct Hevs as [Hevs Hev].
    apply Forall_cons in Hev. destruct Hev as [Hev _].
    destruct (IH Hevs E) as [Hsun Hin].
    apply (step_within pm1 pm2 ev); try assumption.
    subst pm0. apply (run_catalog _ _ _ Hrun).
Qed.

(** C1 (amended) on an instance: a drive at half speed, straight and then
    turning, under 60 W of sun. *)
Lemma current_power_within_nominal_witness :
  Forall within_nominal
         (components_
            (fold_left handle
               [SolarPower 60; CmdVel 0.5 0; ManagementTick;
                CmdVel 0.5 0.9; ManagementTick]
               (PowerManager_new 0))).
Proof.
  refine (current_power_within_nominal 0 _ _ _ (run_handle _ _)).
  repeat constructor; vm_compute; congruence.
Defined.

(** Every registry the manager can hold meets the side condition of the
    allocator theorem: its nominal powers are those of the catalog. *)
Lemma reachable_nominal_nonneg (pm : PowerManager) :
  reachable pm -> Forall (fun c => 0 <= nominal_power c) (components_ pm).
Proof.
  intros (now & evs & Hrun). apply run_catalog in Hrun.
  apply (Forall_transfer catalog_entry _ initializeComponents (components_ pm)).
  - intros x y Hxy Hx. unfold catalog_entry in Hxy.
    injection Hxy as _ _ Hnom _. now rewrite <- Hnom.
  - now symmetry.
  - repeat constructor; simpl; lra.
Qed.

(** ** The enabled set follows the mode *)

Lemma adjust_entry_rule (m : PowerMode) (c : PowerComponent) :
  mode_rule m (adjust_entry m c).
Proof.
  destruct c as [n p nom cur en ess]. destruct m; simpl.
  - reflexivity.
  - unfold adjust_LOW_POWER. simpl.
    destruct (ComponentPriority_eqb p LOW) eqn:Ep; simpl;
      destruct (String.eqb_spec n "cameras"); simpl;
      try discriminate.
    intros _. split; [| assumption].
    intros ->. discriminate.
  - unfold adjust_HIBERNATION. simpl.
    destruct (ComponentPriority_eqb p CRITICAL) eqn:Ep; simpl.
    + apply ComponentPriority_eqb_eq in Ep. auto.
    + destruct ess; simpl; [auto | discriminate].
  - apply adjust_EMERGENCY_enabled.
Qed.

Lemma switchMode_rule (m : PowerMode) (pm : PowerManager) :
  Forall (mode_rule m) (components_ (switchMode m pm)).
Proof.
  rewrite switchMode_components, adjustComponentsForMode_components.
  induction (components_ pm) as [| c cs IH]; simpl; constructor;
    [apply adjust_entry_rule | exact IH].
Qed.

Lemma mode_rule_keeps (m : PowerMode) (l l' : list PowerComponent) :
  map (fun c => (catalog_entry c, is_enabled c)) l
  = map (fun c => (catalog_entry c, is_enabled c)) l' ->
  Forall (mode_rule m) l -> Forall (mode_rule m) l'.
Proof.
  apply Forall_transfer. intros x y Hxy.
  unfold catalog_entry in Hxy. injection Hxy as Hn Hp _ Hess Hen.
  destruct m; simpl; rewrite ?Hn, ?Hp, ?Hess, ?Hen; auto.
Qed.

Lemma switchMode_mode_field (m : PowerMode) (pm : PowerManager) :
  mode (energy_state_ (switchMode m pm)) = m.
Proof. destruct m; reflexivity. Qed.

(** One step keeps: the [mode] field of the energy state equals
    [current_mode_], and the enabled flags obey the rule of the current
    mode. *)
Lemma step_mode_invariant (pm pm' : PowerManager) (ev : Event) :
  mode (energy_state_ pm) = current_mode_ pm ->
  Forall (mode_rule (current_mode_ pm)) (components_ pm) ->
  step pm ev pm' ->
  mode (energy_state_ pm') = current_mode_ pm'
  /\ Forall (mode_rule (current_mode_ pm')) (components_ pm').
Proof.
  intros Hm Hr Hstep. destruct Hstep; simpl.
  - now split.
  - now split.
  - split; [exact Hm |].
    eapply mode_rule_keeps; [| exact Hr]. symmetry.
    now apply set_motors_power_map.
  - destruct H as (pm_alloc & (sorted & _ & ->) & ->). simpl.
    assert (Hd : mode (energy_state_ (managementLoop_decide pm))
                 = current_mode_ (managementLoop_decide pm)
                 /\ Forall (mode_rule (current_mode_ (managementLoop_decide pm)))
                           (components_ (managementLoop_decide pm))).
    { unfold managementLoop_decide. destruct (negb _).
      - rewrite switchMode_mode_field, switchMode_current_mode.
        split; [reflexivity | apply switchMode_rule].
      - now split. }
    destruct Hd as [Hdm Hdr]. split; [exact Hdm |].
    eapply mode_rule_keeps; [| exact Hdr]. symmetry.
    now apply allocate_walk_map.
  - now split.
  - unfold setMode. destruct (negb _); [| now split].
    rewrite switchMode_mode_field, switchMode_current_mode.
    split; [reflexivity | apply switchMode_rule].
Qed.

Lemma reachable_mode_invariant (pm : PowerManager) :
  reachable pm ->
  mode (energy_state_ pm) = current_mode_ pm
  /\ Forall (mode_rule (current_mode_ pm)) (components_ pm).
Proof.
  intros (now & evs & Hrun).
  remember (PowerManager_new now) as pm0 eqn:E.
  induction Hrun as [pm0 | pm0 evs pm1 ev pm2 Hrun IH Hstep].
  - subst. split; [reflexivity |]. repeat constructor.
  - destruct (IH E) as [Hm Hr]. now apply (step_mode_invariant pm1 _ ev).
Qed.

(** X1. In every reachable state the mode recorded in the energy state is
    the current mode: [getEnergyState().mode] and [getCurrentMode()] never
    disagree. *)
Theorem energy_state_mode_is_current (pm : PowerManager) :
  reachable pm -> mode (getEnergyState pm) = getCurrentMode pm.
Proof. intros H. apply (reachable_mode_invariant pm H). Qed.

(** X1 on an instance: after a forced EMERGENCY and a tick. *)
Lemma energy_state_mode_is_current_witness :
  mode (getEnergyState
          (fold_left handle [SetMode EMERGENCY; ManagementTick]
                     (PowerManager_new 0)))
  = getCurrentMode
      (fold_left handle [SetMode EMERGENCY; ManagementTick]
                 (PowerManager_new 0)).
Proof.
  apply energy_state_mode_is_current.
  exists 0. eexists. apply run_handle.
Defined.

(** X2. In every reachable state the enabled flags obey the rule of the
    current mode: in NORMAL every component is enabled; in LOW_POWER no
    enabled component has LOW priority or is named cameras; in HIBERNATION
    every enabled component is CRITICAL or essential; in EMERGENCY the
    enabled components are exactly the CRITICAL ones. *)
Theorem enabled_set_follows_mode (pm : PowerManager) :
  reachable pm -> Forall (mode_rule (current_mode_ pm)) (components_ pm).
Proof. intros H. apply (reachable_mode_invariant pm H). Qed.

(** X2 on an instance: a run that ends in HIBERNATION. *)
Lemma enabled_set_follows_mode_witness :
  let pm := fold_left handle
              [BatteryVoltage 26; CmdVel 1 0; ManagementTick]
              (PowerManager_new 0) in
  Forall (mode_rule (current_mode_ pm)) (components_ pm).
Proof.
  cbv zeta. apply enabled_set_follows_mode.
  exists 0. eexists. apply run_handle.
Defined.

(** ** What a management tick leaves *)

(** The accumulation loop of [updatePowerConsumption] computes the total
    consumption of the enabled components. *)
Lemma updatePowerConsumption_sum (pm : PowerManager) :
  power_consumption (energy_state_ (updatePowerConsumption pm))
  == totalConsumption (components_ pm).
Proof.
  unfold updatePowerConsumption, totalConsumption. simpl.
  set (sel := fun c : PowerComponent =>
                if is_enabled c then Some (current_power c) else None).
  transitivity
    (fold_left (fun a x => match sel x with Some q => a + q | None => a end)
               (components_ pm) 0).
  { generalize 0 at 1 2. induction (components_ pm) as [| c cs IH];
      intros acc; simpl; [reflexivity |].
    unfold sel at 2. destruct (is_enabled c); apply IH. }
  induction (components_ pm) as [| c cs IH]; simpl; [reflexivity |].
  rewrite fold_left_Qplus_shift. unfold sel at 1.
  destruct (is_enabled c); simpl; rewrite IH; lra.
Qed.

Lemma switchMode_power_consumption (m : PowerMode) (pm : PowerManager) :
  power_consumption (energy_state_ (switchMode m pm))
  = power_consumption (energy_state_ pm).
Proof. destruct m; reflexivity. Qed.

Lemma switchMode_battery_soc (m : PowerMode) (pm : PowerManager) :
  battery_soc (energy_state_ (switchMode m pm))
  = battery_soc (energy_state_ pm).
Proof. destruct m; reflexivity. Qed.

(** The mode a tick leaves is the one [determineTargetMode] returns for the
    state with refreshed consumption. *)
Lemma managementLoop_decide_mode (pm : PowerManager) :
  let pm1 := updatePowerConsumption pm in
  current_mode_ (managementLoop_decide pm)
  = determineTargetMode pm1 (battery_soc (energy_state_ pm1))
      (solar_generation (energy_state_ pm1)
       - power_consumption (energy_state_ pm1)).
Proof.
  cbv zeta. unfold managementLoop_decide.
  destruct (PowerMode_eqb _ _) eqn:E; cbn [negb].
  - apply PowerMode_eqb_eq in E. symmetry. exact E.
  - apply switchMode_current_mode.
Qed.

(** X3. After a management tick the current mode is the mode the decision
    rules give for the state at the start of the tick, with the consumption
    refreshed from the registry as it was then, and the consumption figure
    left in the energy state is that pre-tick total: the sum of
    [current_power] over the components enabled before the tick, not over
    the allocation the tick made. *)
Theorem managementLoop_mode_and_consumption (pm pm' : PowerManager) :
  managementLoop pm pm' ->
  let pm1 := updatePowerConsumption pm in
  current_mode_ pm'
  = determineTargetMode pm1 (battery_soc (energy_state_ pm1))
      (solar_generation (energy_state_ pm1)
       - power_consumption (energy_state_ pm1))
  /\ power_consumption (energy_state_ pm')
     == totalConsumption (components_ pm)
  /\ battery_soc (energy_state_ pm') = battery_soc (energy_state_ pm)
  /\ solar_generation (energy_state_ pm')
     = solar_generation (energy_state_ pm).
Proof.
  intros (pm_alloc & (sorted & _ & ->) & ->). cbv zeta. simpl.
  split; [apply managementLoop_decide_mode |].
  unfold managementLoop_decide.
  destruct (negb _).
  - rewrite switchMode_power_consumption, switchMode_battery_soc,
      switchMode_solar_generation.
    split; [apply updatePowerConsumption_sum | now split].
  - split; [apply updatePowerConsumption_sum | now split].
Qed.

(** X3 on an instance: the first tick of a fresh manager under 10 W of sun
    goes to LOW_POWER and records the 80 W drawn before it. *)
Lemma managementLoop_mode_and_consumption_witness :
  let pm := solarCallback 10 (PowerManager_new 0) in
  current_mode_ (managementLoop_run pm) = LOW_POWER
  /\ power_consumption (energy_state_ (managementLoop_run pm)) == 80.
Proof.
  cbv zeta.
  destruct (managementLoop_mode_and_consumption
              (solarCallback 10 (PowerManager_new 0)) _
              (managementLoop_run_ok _)) as (Hm & Hc & _).
  split.
  - rewrite Hm. reflexivity.
  - rewrite Hc. reflexivity.
Defined.

(** X4. From every reachable state with state of charge below 15, a
    management tick ends in EMERGENCY with exactly the CRITICAL components
    enabled, whatever the mode was and whatever was requested through
    [setMode] before. *)
Theorem low_charge_tick_is_emergency (pm pm' : PowerManager) :
  reachable pm ->
  battery_soc (energy_state_ pm) < 15 ->
  managementLoop pm pm' ->
  current_mode_ pm' = EMERGENCY
  /\ Forall (fun c => is_enabled c = true <-> priority c = CRITICAL)
            (components_ pm').
Proof.
  intros Hreach Hsoc Htick.
  destruct (reachable_mode_invariant pm Hreach) as [Hm Hr].
  destruct (step_mode_invariant pm pm' ManagementTick Hm Hr
              (step_management _ _ Htick)) as [_ Hr'].
  assert (Hmode : current_mode_ pm' = EMERGENCY).
  { destruct Htick as (pm_alloc & (sorted & _ & ->) & ->). simpl.
    rewrite managementLoop_decide_mode. unfold determineTargetMode. simpl.
    apply float_lt_spec in Hsoc. now rewrite Hsoc. }
  split; [exact Hmode |]. now rewrite Hmode in Hr'.
Qed.

(** X4 on an instance: a 24.5 V sample, then NORMAL is requested, then a
    tick. *)
Lemma low_charge_tick_is_emergency_witness :
  let pm := fold_left handle [BatteryVoltage 24.5; ManagementTick;
                              SetMode NORMAL] (PowerManager_new 0) in
  current_mode_ (managementLoop_run pm) = EMERGENCY
  /\ Forall (fun c => is_enabled c = true <-> priority c = CRITICAL)
            (components_ (managementLoop_run pm)).
Proof.
  cbv zeta.
  apply (low_charge_tick_is_emergency
           (fold_left handle [BatteryVoltage 24.5; ManagementTick;
                              SetMode NORMAL] (PowerManager_new 0))).
  - exists 0. eexists. apply run_handle.
  - vm_compute. reflexivity.
  - apply managementLoop_run_ok.
Defined.

(** ** More on the allocator *)

Lemma map_eq_lookup {A B : Type} (f : A -> B) (l1 l2 : list A) (i : nat)
      (x y : A) :
  map f l1 = map f l2 -> l1 !! i = Some x -> l2 !! i = Some y -> f x = f y.
Proof.
  revert l2 i. induction l1 as [| a l1 IH]; intros [| b l2] i Hmap Hx Hy;
    try discriminate.
  simpl in Hmap. injection Hmap as Hab Hmap.
  destruct i as [| i]; simpl in *.
  - congruence.
  - eapply IH; eassumption.
Qed.

Lemma map_eq_length {A B : Type} (f : A -> B) (l1 l2 : list A) :
  map f l1 = map f l2 -> length l1 = length l2.
Proof. intros H. apply (f_equal (@length B)) in H. now rewrite !length_map in H. Qed.

Lemma collect_enabled_ext (base : nat) (l1 l2 : list PowerComponent) :
  map is_enabled l1 = map is_enabled l2 ->
  collect_enabled base l1 = collect_enabled base l2.
Proof.
  revert base l2. induction l1 as [| a l1 IH]; intros base [| b l2] H;
    try discriminate; [reflexivity |].
  simpl in *. injection H as Hab H. rewrite Hab.
  destruct (is_enabled b); [f_equal |]; now apply IH.
Qed.

Lemma ptr_priority_ext (l1 l2 : list PowerComponent) (p : nat) :
  map catalog_entry l1 = map catalog_entry l2 ->
  ptr_priority l1 p = ptr_priority l2 p.
Proof.
  intros H. unfold ptr_priority.
  pose proof (map_eq_length _ _ _ H) as Hlen.
  destruct (l1 !! p) as [c1 |] eqn:H1; destruct (l2 !! p) as [c2 |] eqn:H2.
  - pose proof (map_eq_lookup _ _ _ _ _ _ H H1 H2) as Hc.
    unfold catalog_entry in Hc. congruence.
  - apply lookup_lt_Some in H1. apply lookup_ge_None in H2. lia.
  - apply lookup_lt_Some in H2. apply lookup_ge_None in H1. lia.
  - reflexivity.
Qed.

Lemma ptr_nominal_power_ext (l1 l2 : list PowerComponent) (p : nat) :
  map catalog_entry l1 = map catalog_entry l2 ->
  ptr_nominal_power l1 p = ptr_nominal_power l2 p.
Proof.
  intros H. unfold ptr_nominal_power.
  pose proof (map_eq_length _ _ _ H) as Hlen.
  destruct (l1 !! p) as [c1 |] eqn:H1; destruct (l2 !! p) as [c2 |] eqn:H2.
  - pose proof (map_eq_lookup _ _ _ _ _ _ H H1 H2) as Hc.
    unfold catalog_entry in Hc. congruence.
  - apply lookup_lt_Some in H1. apply lookup_ge_None in H2. lia.
  - apply lookup_lt_Some in H2. apply lookup_ge_None in H1. lia.
  - reflexivity.
Qed.

Lemma std_sort_post_ext (l1 l2 : list PowerComponent) (sorted : list nat) :
  map catalog_entry l1 = map catalog_entry l2 ->
  map is_enabled l1 = map is_enabled l2 ->
  std_sort_post (by_priority l1) (collect_enabled 0 l1) sorted ->
  std_sort_post (by_priority l2) (collect_enabled 0 l2) sorted.
Proof.
  intros Hcat Hen [Hperm Hsorted]. split.
  - now rewrite <- (collect_enabled_ext 0 l1 l2 Hen).
  - clear Hperm. induction Hsorted as [| a l Hl IH Ha]; constructor.
    + exact IH.
    + eapply Forall_impl; [exact Ha |]. simpl. intros b Hb.
      unfold by_priority in *.
      now rewrite <- !(ptr_priority_ext l1 l2) by assumption.
Qed.

(** The entry found at a walked pointer after the walk. *)
Lemma allocate_walk_lookup_ptr (sorted : list nat) (a : Q)
      (comps : list PowerComponent) (p : nat) (c : PowerComponent) :
  comps !! p = Some c ->
  allocate_walk sorted a comps !! p
  = Some (set_current_power
            (ptr_current_power (allocate_walk sorted a comps) p) c).
Proof.
  intros Hc. destruct (allocate_walk_lookup sorted a comps p c Hc) as [w Hw].
  unfold ptr_current_power. now rewrite Hw.
Qed.

(** Two registries that differ only in the draws of enabled components are
    allocated alike. *)
Lemma allocate_walk_agree (comps1 comps2 : list PowerComponent)
      (sorted : list nat) (budget : Q) :
  std_sort_post (by_priority comps1) (collect_enabled 0 comps1) sorted ->
  map catalog_entry comps1 = map catalog_entry comps2 ->
  map is_enabled comps1 = map is_enabled comps2 ->
  (forall p c1 c2,
      comps1 !! p = Some c1 -> comps2 !! p = Some c2 ->
      is_enabled c1 = false -> current_power c1 = current_power c2) ->
  allocate_walk sorted budget comps1 = allocate_walk sorted budget comps2.
Proof.
  intros Hsort Hcat Hen Hdis.
  pose proof (std_sort_post_ext _ _ _ Hcat Hen Hsort) as Hsort2.
  destruct (sorted_components_facts comps1 sorted Hsort) as (Hin1 & Hnd & _).
  destruct (sorted_components_facts comps2 sorted Hsort2) as (Hin2 & _ & _).
  assert (Hval : forall comps : list PowerComponent,
             (forall p, In p sorted <->
                        exists c, comps !! p = Some c /\ is_enabled c = true) ->
             Forall (fun p => is_Some (comps !! p)) sorted).
  { intros comps Hin. apply Forall_forall. intros p Hp.
    apply list_elem_of_In, Hin in Hp. destruct Hp as (c & Hc & _).
    now exists c. }
  pose proof (allocate_walk_shares sorted budget comps1 Hnd (Hval _ Hin1))
    as Hs1.
  pose proof (allocate_walk_shares sorted budget comps2 Hnd (Hval _ Hin2))
    as Hs2.
  assert (Hnoms : map (ptr_nominal_power comps1) sorted
                  = map (ptr_nominal_power comps2) sorted).
  { apply map_ext. intros p. now apply ptr_nominal_power_ext. }
  rewrite Hnoms, <- Hs2 in Hs1. apply map_eq_Forall in Hs1.
  rewrite Forall_forall in Hs1.
  pose proof (map_eq_length _ _ _ Hcat) as Hlen.
  apply list_eq. intros i.
  destruct (comps1 !! i) as [c1 |] eqn:H1.
  - destruct (comps2 !! i) as [c2 |] eqn:H2;
      [| apply lookup_lt_Some in H1; apply lookup_ge_None in H2; lia].
    pose proof (map_eq_lookup _ _ _ _ _ _ Hcat H1 H2) as Hc.
    pose proof (map_eq_lookup _ _ _ _ _ _ Hen H1 H2) as He.
    unfold catalog_entry in Hc. injection Hc as Hn Hp Hnom Hess.
    destruct (in_dec Nat.eq_dec i sorted) as [Hi | Hi].
    + rewrite (allocate_walk_lookup_ptr sorted budget comps1 i c1 H1).
      rewrite (allocate_walk_lookup_ptr sorted budget comps2 i c2 H2).
      rewrite (Hs1 i) by now apply list_elem_of_In.
      unfold set_current_power. now rewrite Hn, Hp, Hnom, He, Hess.
    + rewrite !allocate_walk_lookup_other by assumption.
      rewrite H1, H2. f_equal.
      assert (Hoff : is_enabled c1 = false).
      { destruct (is_enabled c1) eqn:E1; [| reflexivity].
        exfalso. apply Hi, Hin1. now exists c1. }
      pose proof (Hdis i c1 c2 H1 H2 Hoff) as Hcur.
      destruct c1, c2. simpl in *. congruence.
  - pose proof H1 as H2. apply lookup_ge_None in H2. rewrite Hlen in H2.
    apply lookup_ge_None in H2.
    apply lookup_ge_None in H1.
    rewrite <- (allocate_walk_length sorted budget comps1) in H1.
    apply lookup_ge_None in H1. rewrite H1.
    apply lookup_ge_None in H2.
    rewrite <- (allocate_walk_length sorted budget comps2) in H2.
    apply lookup_ge_None in H2. now rewrite H2.
Qed.

(** X5. The allocation does not depend on what the enabled components drew
    before: two registries with the same catalog entries and enabled flags
    that agree on the draws of their disabled components get the same
    registry from the walk, for the same walk order and budget.  In
    particular allocating twice in a row changes nothing the second time. *)
Theorem allocation_forgets_previous_draws
        (comps1 comps2 : list PowerComponent) (sorted_components : list nat)
        (budget : Q) :
  std_sort_post (by_priority comps1) (collect_enabled 0 comps1)
                sorted_components ->
  (map catalog_entry comps1 = map catalog_entry comps2 ->
   map is_enabled comps1 = map is_enabled comps2 ->
   (forall p c1 c2,
       comps1 !! p = Some c1 -> comps2 !! p = Some c2 ->
       is_enabled c1 = false -> current_power c1 = current_power c2) ->
   allocate_walk sorted_components budget comps1
   = allocate_walk sorted_components budget comps2)
  /\ allocate_walk sorted_components budget
                   (allocate_walk sorted_components budget comps1)
     = allocate_walk sorted_components budget comps1.
Proof.
  intros Hsort. split; [now apply allocate_walk_agree |].
  symmetry. apply allocate_walk_agree; try assumption.
  - symmetry. now apply allocate_walk_map.
  - symmetry. now apply allocate_walk_map.
  - intros p c1 c2 H1 H2 Hoff.
    destruct (sorted_components_facts comps1 sorted_components Hsort)
      as (Hin & _ & _).
    rewrite allocate_walk_lookup_other in H2; [congruence |].
    intros Hp. apply Hin in Hp. destruct Hp as (c & Hc & He). congruence.
Qed.

(** X5 on an instance: the initial registry and the registry after a motion
    command, under 100 W. *)
Lemma allocation_forgets_previous_draws_witness :
  allocate_walk [0; 1; 2; 3; 4; 5; 7; 6]%nat 100 initializeComponents
  = allocate_walk [0; 1; 2; 3; 4; 5; 7; 6]%nat 100
      (components_ (velocityCallback 1 1 (PowerManager_new 0))).
Proof.
  apply (proj1 (allocation_forgets_previous_draws initializeComponents
                  (components_ (velocityCallback 1 1 (PowerManager_new 0)))
                  [0; 1; 2; 3; 4; 5; 7; 6]%nat 100 initial_walk_post)).
  - reflexivity.
  - reflexivity.
  - intros p c1 c2 H1 H2 Hoff. exfalso.
    do 8 (destruct p as [| p]; [simpl in H1; injection H1 as <-;
                                 discriminate Hoff |]).
    discriminate H1.
Defined.

Lemma walk_shares_sum (ns : list Q) (a : Q) :
  Forall (fun n => 0 <= n) ns -> 0 <= a ->
  Qsum (walk_shares ns a) == Qmin a (Qsum ns).
Proof.
  intros Hns. revert a. induction Hns as [| n ns Hn Hns IH]; intros a Ha;
    simpl.
  - rewrite Q.min_r by lra. reflexivity.
  - pose proof (Qsum_nonneg ns Hns) as Hs.
    destruct (float_ge a n) eqn:E.
    + apply float_ge_spec in E. simpl. rewrite IH by lra.
      destruct (Qlt_le_dec (a - n) (Qsum ns)) as [H | H].
      * rewrite Q.min_l by lra. rewrite Q.min_l by lra. lra.
      * rewrite Q.min_r by lra. rewrite Q.min_r by lra. lra.
    + apply float_ge_false in E. simpl. rewrite IH by lra.
      rewrite Q.min_l by lra. rewrite Q.min_l by lra. lra.
Qed.

(** The total consumption of a registry is the sum of the draws found at
    the pointers of any walk over its enabled components. *)
Lemma totalConsumption_walk (comps : list PowerComponent)
      (sorted : list nat) :
  Permutation (collect_enabled 0 comps) sorted ->
  Qsum (map (ptr_current_power comps) sorted) == totalConsumption comps.
Proof.
  intros Hperm. unfold totalConsumption.
  rewrite <- (collect_enabled_map current_power 0 [] comps). simpl.
  apply Qsum_Permutation. apply Permutation_map. now symmetry.
Qed.

Lemma allocate_walk_total (comps : list PowerComponent)
      (sorted : list nat) (budget : Q) :
  std_sort_post (by_priority comps) (collect_enabled 0 comps) sorted ->
  Forall (fun c => 0 <= nominal_power c) comps ->
  0 <= budget ->
  totalConsumption (allocate_walk sorted budget comps)
  == Qmin budget (enabled_demand comps).
Proof.
  intros Hsort Hnn Hb.
  destruct (sorted_components_facts comps sorted Hsort) as (Hin & Hnd & _).
  assert (Hval : Forall (fun p => is_Some (comps !! p)) sorted).
  { apply Forall_forall. intros p Hp. apply list_elem_of_In, Hin in Hp.
    destruct Hp as (c & Hc & _). now exists c. }
  rewrite <- (totalConsumption_walk _ sorted).
  - rewrite (allocate_walk_shares _ _ _ Hnd Hval).
    rewrite walk_shares_sum; [| | exact Hb].
    + now rewrite (sorted_demand comps sorted (proj1 Hsort)).
    + apply Forall_map, Forall_forall. intros p _.
      now apply ptr_nominal_power_nonneg.
  - rewrite (collect_enabled_ext 0 _ comps); [exact (proj1 Hsort) |].
    now apply allocate_walk_map.
Qed.

(** X6. With non-negative nominal powers and a non-negative budget, the
    draws the allocator assigns to the enabled components add up to
    [min(budget, demand)], the demand being the sum of the enabled nominal
    powers: the allocation never exceeds the budget, and it leaves budget
    unused only when every enabled component is served in full. *)
Theorem allocation_total (comps : list PowerComponent)
        (sorted_components : list nat) (budget : Q) :
  std_sort_post (by_priority comps) (collect_enabled 0 comps)
                sorted_components ->
  Forall (fun c => 0 <= nominal_power c) comps ->
  0 <= budget ->
  let after := allocate_walk sorted_components budget comps in
  totalConsumption after == Qmin budget (enabled_demand comps)
  /\ totalConsumption after <= budget
  /\ totalConsumption after <= enabled_demand comps.
Proof.
  intros Hsort Hnn Hb. cbv zeta.
  pose proof (allocate_walk_total comps sorted_components budget Hsort Hnn Hb)
    as Htot.
  split; [exact Htot |]. rewrite Htot.
  split; [apply Q.le_min_l | apply Q.le_min_r].
Qed.

(** X6 on an instance: the initial registry under 60 W. *)
Lemma allocation_total_witness :
  totalConsumption
    (allocate_walk [0; 1; 2; 3; 4; 5; 7; 6]%nat 60 initializeComponents)
  <= 60.
Proof.
  refine (proj1 (proj2 (allocation_total initializeComponents
                          [0; 1; 2; 3; 4; 5; 7; 6]%nat 60
                          initial_walk_post _ _))).
  - repeat constructor; vm_compute; congruence.
  - vm_compute; congruence.
Defined.

(** X7. [allocatePower] writes the [current_power] of enabled components
    and nothing else: the mode, the energy state, the stored time and the
    output are unchanged, every entry keeps its name, priority, nominal
    power, essential flag and enabled flag, and a disabled component keeps
    the draw it had (it is not reset to 0). *)
Theorem allocatePower_frame (pm pm' : PowerManager) :
  allocatePower pm pm' ->
  current_mode_ pm' = current_mode_ pm
  /\ energy_state_ pm' = energy_state_ pm
  /\ last_prediction_time_ pm' = last_prediction_time_ pm
  /\ outbox pm' = outbox pm
  /\ map catalog_entry (components_ pm') = map catalog_entry (components_ pm)
  /\ map is_enabled (components_ pm') = map is_enabled (components_ pm)
  /\ (forall p c, components_ pm !! p = Some c -> is_enabled c = false ->
                  components_ pm' !! p = Some c).
Proof.
  intros (sorted & Hsort & ->). simpl.
  repeat split; try (now apply allocate_walk_map).
  intros p c Hc Hoff.
  destruct (sorted_components_facts _ sorted Hsort) as (Hin & _ & _).
  rewrite allocate_walk_lookup_other; [exact Hc |].
  intros Hp. apply Hin in Hp. destruct Hp as (c' & Hc' & He). congruence.
Qed.

(** X7 on an instance: in EMERGENCY the navigation unit is disabled and
    keeps its 25 W through an allocation. *)
Lemma allocatePower_frame_witness :
  components_ (allocatePower_run (setMode EMERGENCY (PowerManager_new 0)))
  !! 2%nat
  = Some (mkPowerComponent "navigation" HIGH 25 25 false true).
Proof.
  apply (proj2 (proj2 (proj2 (proj2 (proj2 (proj2
           (allocatePower_frame (setMode EMERGENCY (PowerManager_new 0)) _
              (allocatePower_run_ok _)))))))).
  - reflexivity.
  - reflexivity.
Defined.

(** ** Telemetry between ticks *)

Lemma set_motors_power_twice (w1 w2 : Q) (comps : list PowerComponent) :
  set_motors_power w2 (set_motors_power w1 comps) = set_motors_power w2 comps.
Proof.
  induction comps as [| c comps IH]; simpl; [reflexivity |].
  destruct (String.eqb (name c) "motors") eqn:E; simpl; rewrite E.
  - reflexivity.
  - now rewrite IH.
Qed.

(** X8. The three telemetry callbacks commute with one another, and for
    solar samples and motion commands the last one wins: between two ticks
    only the latest solar sample and the latest motion command matter, in
    whatever order the samples of different kinds arrived.  A repeated
    voltage sample leaves the same energy state and is published again. *)
Theorem telemetry_callbacks_commute (pm : PowerManager)
        (v s s' x z x' z' : Q) :
  solarCallback s (batteryCallback v pm)
  = batteryCallback v (solarCallback s pm)
  /\ velocityCallback x z (batteryCallback v pm)
     = batteryCallback v (velocityCallback x z pm)
  /\ velocityCallback x z (solarCallback s pm)
     = solarCallback s (velocityCallback x z pm)
  /\ solarCallback s' (solarCallback s pm) = solarCallback s' pm
  /\ velocityCallback x' z' (velocityCallback x z pm)
     = velocityCallback x' z' pm
  /\ energy_state_ (batteryCallback v (batteryCallback v pm))
     = energy_state_ (batteryCallback v pm)
  /\ outbox (batteryCallback v (batteryCallback v pm))
     = outbox pm ++ [PublishBatterySoc (battery_soc
                                          (energy_state_ (batteryCallback v pm)));
                     PublishBatterySoc (battery_soc
                                          (energy_state_ (batteryCallback v pm)))].
Proof.
  repeat split; try reflexivity.
  - unfold velocityCallback, set_components. simpl.
    now rewrite set_motors_power_twice.
  - simpl. now rewrite <- app_assoc.
Qed.

(** A registry with the catalog of the initial one has its eight entries. *)
Lemma catalog_shape (comps : list PowerComponent) :
  map catalog_entry comps = map catalog_entry initializeComponents ->
  exists c0 c1 c2 c3 c4 c5 c6 c7,
    comps = [c0; c1; c2; c3; c4; c5; c6; c7]
    /\ catalog_entry c0 = ("communication"%string, CRITICAL, 15, true)
    /\ catalog_entry c1 = ("fdir_watchdog"%string, CRITICAL, 5, true)
    /\ catalog_entry c2 = ("navigation"%string, HIGH, 25, true)
    /\ catalog_entry c3 = ("motors"%string, HIGH, 50, true)
    /\ catalog_entry c4 = ("lidar"%string, MEDIUM, 20, false)
    /\ catalog_entry c5 = ("cameras"%string, MEDIUM, 15, false)
    /\ catalog_entry c6 = ("science_instruments"%string, LOW, 30, false)
    /\ catalog_entry c7 = ("heating"%string, MEDIUM, 40, false).
Proof.
  intros H.
  do 8 (destruct comps as [| ? comps]; [discriminate H |]).
  destruct comps; [| discriminate H].
  do 8 eexists. split; [reflexivity |].
  change (map catalog_entry initializeComponents)
    with [("communication"%string, CRITICAL, 15, true);
          ("fdir_watchdog"%string, CRITICAL, 5, true);
          ("navigation"%string, HIGH, 25, true);
          ("motors"%string, HIGH, 50, true);
          ("lidar"%string, MEDIUM, 20, false);
          ("cameras"%string, MEDIUM, 15, false);
          ("science_instruments"%string, LOW, 30, false);
          ("heating"%string, MEDIUM, 40, false)] in H.
  cbn [map] in H. repeat split; congruence.
Qed.

Lemma reachable_catalog (pm : PowerManager) :
  reachable pm ->
  map catalog_entry (components_ pm) = map catalog_entry initializeComponents.
Proof. intros (now & evs & Hrun). now apply run_catalog in Hrun. Qed.

Lemma Qabs_Qopp (x : Q) : Qabs (- x) = Qabs x.
Proof. destruct x as [n d]. unfold Qabs, Qopp. simpl. now rewrite Z.abs_opp. Qed.

(** X9. In every reachable state a motion command whose two rates are
    numbers writes [10 + 40 * |linear.x| + 20 * |angular.z|] into the
    fourth registry entry, the one named motors, and changes nothing else;
    it does so whether or not the motors are enabled, the value is at least
    the idle 10 W, and it depends only on the magnitudes of the two
    rates. *)
Theorem velocityCallback_writes_motors (pm : PowerManager) (x z : Q) :
  reachable pm ->
  let w := 10 + 40 * Qabs x + 20 * Qabs z in
  exists motors,
    components_ pm !! 3%nat = Some motors
    /\ name motors = "motors"%string
    /\ velocityCallback x z pm
       = set_components (<[3%nat := set_current_power w motors]> (components_ pm))
                        pm
    /\ 10 <= w
    /\ velocityCallback (- x) (- z) pm = velocityCallback x z pm.
Proof.
  intros Hreach. cbv zeta.
  destruct (catalog_shape _ (reachable_catalog pm Hreach))
    as (c0 & c1 & c2 & c3 & c4 & c5 & c6 & c7 & Hcomps
        & H0 & H1 & H2 & H3 & H4 & H5 & H6 & H7).
  exists c3. rewrite Hcomps. split; [reflexivity |].
  unfold catalog_entry in *.
  injection H0 as N0 _ _ _. injection H1 as N1 _ _ _.
  injection H2 as N2 _ _ _. injection H3 as N3 _ _ _.
  split; [exact N3 |]. split; [| split].
  - unfold velocityCallback. rewrite Hcomps. simpl.
    rewrite N0, N1, N2, N3. reflexivity.
  - pose proof (Qabs_nonneg x). pose proof (Qabs_nonneg z). lra.
  - unfold velocityCallback. now rewrite !Qabs_Qopp.
Qed.

(** X9 on an instance: a turn on the spot while in EMERGENCY. *)
Lemma velocityCallback_writes_motors_witness :
  exists motors,
    components_ (setMode EMERGENCY (PowerManager_new 0)) !! 3%nat = Some motors
    /\ is_enabled motors = false
    /\ components_ (velocityCallback 0 (-1)
                      (setMode EMERGENCY (PowerManager_new 0))) !! 3%nat
       = Some (set_current_power (10 + 40 * Qabs 0 + 20 * Qabs (-1)) motors).
Proof.
  destruct (velocityCallback_writes_motors
              (setMode EMERGENCY (PowerManager_new 0)) 0 (-1))
    as (motors & Hm & _ & Heq & _).
  - exists 0, [SetMode EMERGENCY]. apply run_handle.
  - exists motors. split; [exact Hm |]. split.
    + simpl in Hm. injection Hm as <-. reflexivity.
    + rewrite Heq. simpl. reflexivity.
Defined.

(** ** State of charge over a run *)

Lemma step_soc_voltage (pm pm' : PowerManager) (ev : Event) :
  step pm ev pm' ->
  match ev with
  | BatteryVoltage data =>
      voltage (energy_state_ pm') = data
      /\ battery_soc (energy_state_ pm') = soc_of_voltage data
  | _ =>
      voltage (energy_state_ pm') = voltage (energy_state_ pm)
      /\ battery_soc (energy_state_ pm') = battery_soc (energy_state_ pm)
  end.
Proof.
  intros Hstep. destruct Hstep; simpl; try (split; reflexivity).
  - destruct H as (pm_alloc & (sorted & _ & ->) & ->). simpl.
    unfold managementLoop_decide. destruct (negb _); [| now split].
    destruct (determineTargetMode _ _ _); now split.
  - unfold setMode. destruct (negb _); [| now split].
    destruct m; now split.
Qed.

Lemma run_soc_voltage (now : Q) (evs : list Event) (pm : PowerManager) :
  run (PowerManager_new now) evs pm ->
  if existsb is_battery_sample evs
  then battery_soc (energy_state_ pm)
       = soc_of_voltage (voltage (energy_state_ pm))
  else battery_soc (energy_state_ pm) = 100
       /\ voltage (energy_state_ pm) = 28.
Proof.
  intros Hrun. remember (PowerManager_new now) as pm0 eqn:E.
  induction Hrun as [pm0 | pm0 evs pm1 ev pm2 Hrun IH Hstep].
  - subst. simpl. now split.
  - specialize (IH E). rewrite existsb_app. simpl. rewrite orb_false_r.
    pose proof (step_soc_voltage _ _ _ Hstep) as Hs.
    destruct ev; simpl in *;
      try (rewrite orb_false_r; destruct Hs as [-> ->]; exact IH).
    rewrite orb_true_r. destruct Hs as [-> ->]. reflexivity.
Qed.

(** X10. Along every run from the constructor whose samples are numbers
    the state of charge stays in [0, 100].  As long as no voltage sample
    has arrived it is the default 100 next to the default 28 V, two
    defaults that do not fit the voltage map (28 V maps to 2000/27, about
    74); from the first sample on it is always the clamped linear image of
    the stored voltage, whatever ticks, mode changes and other samples
    follow. *)
Theorem soc_tracks_voltage (now : Q) (evs : list Event) (pm : PowerManager) :
  run (PowerManager_new now) evs pm ->
  0 <= battery_soc (energy_state_ pm)
  /\ battery_soc (energy_state_ pm) <= 100
  /\ (if existsb is_battery_sample evs
      then battery_soc (energy_state_ pm)
           = soc_of_voltage (voltage (energy_state_ pm))
      else battery_soc (energy_state_ pm) = 100
           /\ voltage (energy_state_ pm) = 28
           /\ soc_of_voltage 28 == 2000 # 27).
Proof.
  intros Hrun. apply run_soc_voltage in Hrun.
  destruct (existsb is_battery_sample evs).
  - rewrite Hrun.
    assert (H100 : 0 <= 100) by lra.
    destruct (std_clamp_range (((voltage (energy_state_ pm) - 24) / 5.4) * 100)
                              0 100 H100) as [Hlo Hhi].
    repeat split; assumption.
  - destruct Hrun as [-> ->].
    split; [lra |]. split; [lra |]. split; [reflexivity |].
    split; [reflexivity |]. vm_compute. reflexivity.
Qed.

(** X10 on an instance: a sample of 27 V followed by other traffic. *)
Lemma soc_tracks_voltage_witness :
  let pm := fold_left handle
              [SolarPower 30; BatteryVoltage 27; ManagementTick; CmdVel 1 0;
               SetMode LOW_POWER; ManagementTick]
              (PowerManager_new 0) in
  battery_soc (energy_state_ pm) = soc_of_voltage (voltage (energy_state_ pm)).
Proof.
  cbv zeta.
  refine (proj2 (proj2 (soc_tracks_voltage 0
            [SolarPower 30; BatteryVoltage 27; ManagementTick; CmdVel 1 0;
             SetMode LOW_POWER; ManagementTick] _ (run_handle _ _)))).
Defined.

(** ** What is published *)

Lemma switchMode_outbox (m : PowerMode) (pm : PowerManager) :
  outbox (switchMode m pm)
  = outbox pm ++ [LogSwitching (powerModeToString (current_mode_ pm))
                               (powerModeToString m);
                  PublishMode (powerModeToString m)].
Proof. destruct m; simpl; now rewrite <- app_assoc. Qed.

Lemma powerModeToString_inj (m1 m2 : PowerMode) :
  powerModeToString m1 = powerModeToString m2 -> m1 = m2.
Proof. destruct m1, m2; simpl; intros H; try reflexivity; discriminate. Qed.

Lemma PowerMode_eqb_neq (a b : PowerMode) :
  PowerMode_eqb a b = false -> a <> b.
Proof. intros H ->. now rewrite PowerMode_eqb_refl in H. Qed.

(** What one step appends to the output: either nothing about the mode,
    the mode staying as it is, or the two lines of one mode switch, the
    mode having changed. *)
Lemma step_outbox (pm pm' : PowerManager) (ev : Event) :
  step pm ev pm' ->
  exists switch others,
    outbox pm' = outbox pm ++ switch ++ others
    /\ Forall (fun o => match o with
                        | PublishMode _ | LogSwitching _ _ => False
                        | _ => True
                        end) others
    /\ (length others <= 1)%nat
    /\ ((switch = [] /\ current_mode_ pm' = current_mode_ pm)
        \/ (switch = [LogSwitching (powerModeToString (current_mode_ pm))
                                   (powerModeToString (current_mode_ pm'));
                      PublishMode (powerModeToString (current_mode_ pm'))]
            /\ current_mode_ pm' <> current_mode_ pm)).
Proof.
  intros Hstep. destruct Hstep.
  - exists [], [PublishBatterySoc (soc_of_voltage data)]. simpl.
    repeat split; auto.
  - exists [], []. simpl. rewrite app_nil_r. repeat split; auto.
  - exists [], []. simpl. rewrite app_nil_r. repeat split; auto.
  - destruct H as (pm_alloc & (sorted & _ & ->) & ->).
    unfold managementLoop_publish, allocatePower_in_order. simpl.
    unfold managementLoop_decide.
    destruct (PowerMode_eqb _ _) eqn:E; cbn [negb].
    + eexists [], [PublishAvailablePower _]. simpl.
      split; [reflexivity |]. split; [repeat constructor |].
      split; [lia |]. left. now split.
    + eexists _, [PublishAvailablePower _].
      rewrite switchMode_outbox, switchMode_current_mode.
      split; [rewrite <- app_assoc; reflexivity |].
      split; [repeat constructor |]. split; [simpl; lia |].
      right. split; [reflexivity |]. now apply PowerMode_eqb_neq.
  - eexists [], [LogPrediction _ _ _]. simpl. repeat split; auto.
  - unfold setMode. destruct (PowerMode_eqb _ _) eqn:E; simpl.
    + exists [], []. simpl. rewrite app_nil_r. repeat split; auto.
    + eexists _, []. rewrite app_nil_r.
      rewrite switchMode_outbox, switchMode_current_mode.
      split; [reflexivity |]. split; [constructor |]. split; [simpl; lia |].
      right. split; [reflexivity |]. now apply PowerMode_eqb_neq.
Qed.

Lemma published_modes_app (out1 out2 : list Output) :
  published_modes (out1 ++ out2) = published_modes out1 ++ published_modes out2.
Proof.
  induction out1 as [| o out1 IH]; simpl; [reflexivity |].
  destruct o; simpl; now rewrite IH.
Qed.

Lemma published_modes_none (others : list Output) :
  Forall (fun o => match o with
                   | PublishMode _ | LogSwitching _ _ => False
                   | _ => True
                   end) others ->
  published_modes others = [].
Proof.
  induction 1 as [| o others Ho _ IH]; simpl; [reflexivity |].
  destruct o; simpl; auto; contradiction.
Qed.

Lemma last_nonempty_default {A : Type} (a : A) (l : list A) (d1 d2 : A) :
  List.last (a :: l) d1 = List.last (a :: l) d2.
Proof.
  revert a. induction l as [| b l IH]; intros a; [reflexivity |].
  change (List.last (b :: l) d1 = List.last (b :: l) d2). apply IH.
Qed.

Lemma no_repeat_snoc (prev m : PowerMode) (ms : list PowerMode) :
  no_repeat prev ms -> List.last ms prev <> m -> no_repeat prev (ms ++ [m]).
Proof.
  revert prev. induction ms as [| a ms IH]; intros prev Hnr Hlast; simpl in *.
  - now split.
  - destruct Hnr as [Hpa Hnr]. split; [exact Hpa |].
    apply IH; [exact Hnr |].
    destruct ms as [| b ms]; [exact Hlast |].
    now rewrite (last_nonempty_default b ms a prev).
Qed.

(** X11. The mode is published exactly when it changes.  Along every run
    from the constructor the strings published on the mode topic are the
    names of a sequence of modes in which no mode repeats the one before it
    (NORMAL being the mode before the first), and the last of them is the
    current mode; as long as nothing has been published the mode is
    NORMAL. *)
Theorem published_modes_track_mode (now : Q) (evs : list Event)
        (pm : PowerManager) :
  run (PowerManager_new now) evs pm ->
  exists ms : list PowerMode,
    published_modes (outbox pm) = map powerModeToString ms
    /\ no_repeat NORMAL ms
    /\ List.last ms NORMAL = current_mode_ pm.
Proof.
  intros Hrun. remember (PowerManager_new now) as pm0 eqn:E.
  induction Hrun as [pm0 | pm0 evs pm1 ev pm2 Hrun IH Hstep].
  - subst. exists []. simpl. auto.
  - destruct (IH E) as (ms & Hpub & Hnr & Hlast).
    destruct (step_outbox _ _ _ Hstep)
      as (switch & others & Hout & Hothers & _ & Hcase).
    rewrite Hout, !published_modes_app, (published_modes_none _ Hothers),
      app_nil_r.
    destruct Hcase as [[-> Hsame] | [-> Hdiff]].
    + exists ms. simpl. rewrite app_nil_r, Hsame. auto.
    + exists (ms ++ [current_mode_ pm2]). simpl.
      rewrite map_app, Hpub. split; [reflexivity |]. split.
      * apply no_repeat_snoc; [exact Hnr |]. rewrite Hlast. auto.
      * apply List.last_last.
Qed.

(** X11 on an instance: a run through EMERGENCY and HIBERNATION to
    LOW_POWER publishes those three names, in that order. *)
Lemma published_modes_track_mode_witness :
  exists ms : list PowerMode,
    published_modes
      (outbox (fold_left handle
                 [BatteryVoltage 24.5; ManagementTick; ManagementTick;
                  BatteryVoltage 26; ManagementTick; SolarPower 10;
                  BatteryVoltage 25.5; ManagementTick]
                 (PowerManager_new 0)))
    = map powerModeToString ms
    /\ no_repeat NORMAL ms
    /\ List.last ms NORMAL = LOW_POWER.
Proof.
  exact (published_modes_track_mode 0 _ _ (run_handle _ _)).
Defined.

Lemma run_soc_range (now : Q) (evs : list Event) (pm : PowerManager) :
  run (PowerManager_new now) evs pm ->
  0 <= battery_soc (energy_state_ pm) /\ battery_soc (energy_state_ pm) <= 100.
Proof.
  intros Hrun. apply run_soc_voltage in Hrun.
  destruct (existsb is_battery_sample evs).
  - rewrite Hrun. apply std_clamp_range. lra.
  - destruct Hrun as [-> _]. lra.
Qed.

Lemma std_max_lower (a b : Q) : a <= std_max a b.
Proof. unfold std_max. float_case a b; lra. Qed.

Lemma step_outputs_in_range (pm pm' : PowerManager) (ev : Event) :
  0 <= battery_soc (energy_state_ pm) ->
  battery_soc (energy_state_ pm) <= 100 ->
  step pm ev pm' ->
  exists new, outbox pm' = outbox pm ++ new /\ Forall output_in_range new.
Proof.
  intros Hlo Hhi Hstep.
  assert (Hswitch : forall m pm0,
             PowerMode_eqb m (current_mode_ pm0) = false ->
             Forall output_in_range
                    [LogSwitching (powerModeToString (current_mode_ pm0))
                                  (powerModeToString m);
                     PublishMode (powerModeToString m)]).
  { intros m pm0 E. repeat constructor; simpl.
    - exists (current_mode_ pm0), m. repeat split.
      intros Heq. apply (PowerMode_eqb_neq _ _ E). now symmetry.
    - now exists m. }
  destruct Hstep.
  - eexists. split; [reflexivity |]. repeat constructor; simpl;
      apply std_clamp_range; lra.
  - exists []. split; [simpl; now rewrite app_nil_r | constructor].
  - exists []. split; [simpl; now rewrite app_nil_r | constructor].
  - destruct H as (pm_alloc & (sorted & _ & ->) & ->).
    unfold managementLoop_publish, allocatePower_in_order. simpl.
    unfold managementLoop_decide.
    destruct (PowerMode_eqb _ _) eqn:E; cbn [negb].
    + eexists. split; [reflexivity |]. repeat constructor. simpl.
      apply std_max_lower.
    + eexists. rewrite switchMode_outbox.
      split; [rewrite <- app_assoc; reflexivity |].
      apply Forall_app. split; [now apply Hswitch |].
      repeat constructor. simpl. apply std_max_lower.
  - eexists. split; [reflexivity |]. constructor; [| constructor]. simpl.
    split; [vm_compute; reflexivity |]. split; [exact Hlo |].
    split; [exact Hhi |]. now exists (current_mode_ pm).
  - unfold setMode. destruct (PowerMode_eqb _ _) eqn:E; simpl.
    + exists []. split; [now rewrite app_nil_r | constructor].
    + eexists. rewrite switchMode_outbox. split; [reflexivity |].
      now apply Hswitch.
Qed.

(** X12. As long as the samples it receives are numbers, everything the
    manager hands out is in range: every state of charge published is in
    [0, 100], every available-power figure published is non-negative, every
    mode string is the name of one of the four modes, every switch logged
    is between two different modes, and every prediction line carries a
    forecast of 0 Wh (the fixed generation and consumption figures cancel),
    a state of charge in [0, 100] and a mode name. *)
Theorem outputs_in_range (pm : PowerManager) :
  reachable pm -> Forall output_in_range (outbox pm).
Proof.
  intros (now & evs & Hrun).
  remember (PowerManager_new now) as pm0 eqn:E.
  induction Hrun as [pm0 | pm0 evs pm1 ev pm2 Hrun IH Hstep].
  - subst. repeat constructor.
  - subst pm0. destruct (run_soc_range _ _ _ Hrun) as [Hlo Hhi].
    destruct (step_outputs_in_range _ _ _ Hlo Hhi Hstep) as (new & -> & Hnew).
    apply Forall_app. split; [now apply IH | exact Hnew].
Qed.

(** X12 on an instance: negative sun, an out-of-range voltage, a forced
    mode and a prediction. *)
Lemma outputs_in_range_witness :
  Forall output_in_range
         (outbox (fold_left handle
                    [SolarPower (-5); BatteryVoltage 40; ManagementTick;
                     SetMode HIBERNATION; PredictionTick 1; ManagementTick]
                    (PowerManager_new 0))).
Proof.
  apply outputs_in_range. exists 0. eexists. apply run_handle.
Defined.

(** ** Prediction ticks *)

Lemma reframe_eq (a b : PowerManager) :
  current_mode_ a = current_mode_ b ->
  energy_state_ a = energy_state_ b ->
  components_ a = components_ b ->
  a = reframe (last_prediction_time_ a) (outbox a) b.
Proof. destruct a, b. simpl. intros -> -> ->. reflexivity. Qed.

Lemma switchMode_reframe (m : PowerMode) (pm : PowerManager) (t : Q)
      (out : list Output) :
  current_mode_ (switchMode m (reframe t out pm))
  = current_mode_ (switchMode m pm)
  /\ energy_state_ (switchMode m (reframe t out pm))
     = energy_state_ (switchMode m pm)
  /\ components_ (switchMode m (reframe t out pm))
     = components_ (switchMode m pm).
Proof. destruct m; repeat split. Qed.

Lemma managementLoop_decide_reframe (pm : PowerManager) (t : Q)
      (out : list Output) :
  current_mode_ (managementLoop_decide (reframe t out pm))
  = current_mode_ (managementLoop_decide pm)
  /\ energy_state_ (managementLoop_decide (reframe t out pm))
     = energy_state_ (managementLoop_decide pm)
  /\ components_ (managementLoop_decide (reframe t out pm))
     = components_ (managementLoop_decide pm).
Proof.
  unfold managementLoop_decide. simpl.
  destruct (negb _); [| repeat split].
  apply (switchMode_reframe _ (updatePowerConsumption pm) t out).
Qed.

(** A step made from a manager can be made from the same manager with
    another stored time and output, and reaches the same mode, energy
    state and registry. *)
Lemma step_reframe (pm pm' : PowerManager) (ev : Event) (t : Q)
      (out : list Output) :
  step pm ev pm' ->
  exists t' out', step (reframe t out pm) ev (reframe t' out' pm').
Proof.
  intros Hstep. destruct Hstep.
  - exists t, (out ++ [PublishBatterySoc (soc_of_voltage data)]).
    apply (step_battery (reframe t out pm) data).
  - exists t, out. apply (step_solar (reframe t out pm) data).
  - exists t, out.
    apply (step_velocity (reframe t out pm) linear_x angular_z).
  - destruct H as (pm_alloc & (sorted & Hsort & ->) & ->).
    destruct (managementLoop_decide_reframe pm t out) as (Hm & He & Hc).
    set (X := managementLoop_publish
                (allocatePower_in_order sorted
                   (managementLoop_decide (reframe t out pm)))).
    exists (last_prediction_time_ X), (outbox X).
    rewrite <- (reframe_eq X).
    + apply step_management. eexists. split; [| reflexivity].
      exists sorted. split; [| reflexivity]. now rewrite Hc.
    + exact Hm.
    + exact He.
    + unfold X. simpl. now rewrite He, Hc.
  - exists now, (out ++ [LogPrediction predictEnergyForNextSol
                           (battery_soc (energy_state_ pm))
                           (powerModeToString (current_mode_ pm))]).
    apply (step_prediction (reframe t out pm) now).
  - set (X := setMode m (reframe t out pm)).
    exists (last_prediction_time_ X), (outbox X).
    rewrite <- (reframe_eq X); [apply step_setMode | | |];
      unfold X, setMode; simpl; destruct (negb _); try reflexivity;
      apply (switchMode_reframe m pm t out).
Qed.

Lemma run_reframe (pm0 pm : PowerManager) (evs : list Event) (t : Q)
      (out : list Output) :
  run pm0 evs pm ->
  exists t' out',
    run (reframe t out pm0) (List.filter (fun ev => negb (is_prediction_tick ev)) evs)
        (reframe t' out' pm).
Proof.
  induction 1 as [pm0 | pm0 evs pm1 ev pm2 Hrun IH Hstep].
  - exists t, out. constructor.
  - destruct IH as (t1 & out1 & IH). rewrite List.filter_app. simpl.
    destruct (is_prediction_tick ev) eqn:Ep; simpl.
    + rewrite app_nil_r. exists t1, out1.
      destruct ev; try discriminate Ep.
      inversion Hstep; subst. exact IH.
    + destruct (step_reframe _ _ _ t1 out1 Hstep) as (t2 & out2 & Hstep2).
      exists t2, out2. econstructor; eassumption.
Qed.

(** X13. Prediction ticks never influence the mode, the energy state or the
    registry: whatever run leads to a state, the same run with its
    prediction ticks left out leads to a state with the same current mode,
    the same energy state and the same registry. *)
Theorem prediction_ticks_are_invisible (pm0 pm : PowerManager)
        (evs : list Event) :
  run pm0 evs pm ->
  exists pm',
    run pm0 (List.filter (fun ev => negb (is_prediction_tick ev)) evs) pm'
    /\ current_mode_ pm' = current_mode_ pm
    /\ energy_state_ pm' = energy_state_ pm
    /\ components_ pm' = components_ pm.
Proof.
  intros Hrun.
  destruct (run_reframe _ _ _ (last_prediction_time_ pm0) (outbox pm0) Hrun)
    as (t' & out' & Hrun').
  exists (reframe t' out' pm).
  replace (reframe (last_prediction_time_ pm0) (outbox pm0) pm0) with pm0
    in Hrun' by now destruct pm0.
  repeat split. exact Hrun'.
Qed.

(** X13 on an instance: a run with two prediction ticks in it. *)
Lemma prediction_ticks_are_invisible_witness :
  exists pm',
    run (PowerManager_new 0)
        [BatteryVoltage 25; ManagementTick; SolarPower 40; ManagementTick] pm'
    /\ current_mode_ pm'
       = current_mode_
           (fold_left handle
              [BatteryVoltage 25; PredictionTick 1; ManagementTick;
               SolarPower 40; PredictionTick 2; ManagementTick]
              (PowerManager_new 0)).
Proof.
  destruct (prediction_ticks_are_invisible (PowerManager_new 0) _
              [BatteryVoltage 25; PredictionTick 1; ManagementTick;
               SolarPower 40; PredictionTick 2; ManagementTick]
              (run_handle _ _)) as (pm' & Hrun & Hm & _).
  exists pm'. split; [exact Hrun | exact Hm].
Defined.

(** ** The budget a tick reports *)

Lemma run_critical_enabled (pm : PowerManager) :
  reachable pm ->
  map catalog_entry (components_ pm) = map catalog_entry initializeComponents
  /\ Forall critical_enabled (components_ pm).
Proof.
  intros (now & evs & Hrun).
  remember (PowerManager_new now) as pm0 eqn:E.
  induction Hrun as [pm0 | pm0 evs pm1 ev pm2 Hrun IH Hstep].
  - subst. split; [reflexivity |]. repeat constructor.
  - destruct (IH E) as [Hcat Hen]. split.
    + rewrite <- Hcat. apply (step_keeps catalog_entry _ _ ev); auto.
    + now apply (step_critical pm1 _ ev).
Qed.

(** In a registry with the catalog and both CRITICAL entries enabled, every
    order the sort may produce starts with those two entries. *)
Lemma critical_walked_first (comps : list PowerComponent)
      (sorted : list nat) :
  map catalog_entry comps = map catalog_entry initializeComponents ->
  Forall critical_enabled comps ->
  std_sort_post (by_priority comps) (collect_enabled 0 comps) sorted ->
  exists rest,
    sorted = 0%nat :: 1%nat :: rest \/ sorted = 1%nat :: 0%nat :: rest.
Proof.
  intros Hcat Hen Hsort.
  destruct (sorted_components_facts comps sorted Hsort) as (Hin & Hnd & Hasc).
  destruct (catalog_shape comps Hcat)
    as (c0 & c1 & c2 & c3 & c4 & c5 & c6 & c7 & -> & H0 & H1 & H2 & H3 & H4
        & H5 & H6 & H7).
  unfold catalog_entry in *.
  injection H0 as _ P0 _ _. injection H1 as _ P1 _ _.
  injection H2 as _ P2 _ _. injection H3 as _ P3 _ _.
  injection H4 as _ P4 _ _. injection H5 as _ P5 _ _.
  injection H6 as _ P6 _ _. injection H7 as _ P7 _ _.
  remember [c0; c1; c2; c3; c4; c5; c6; c7] as comps eqn:Hcomps.
  assert (Hpv0 : priority_value (ptr_priority comps 0) = 0%nat)
    by (rewrite Hcomps; unfold ptr_priority; simpl; now rewrite P0).
  assert (Hpv1 : priority_value (ptr_priority comps 1) = 0%nat)
    by (rewrite Hcomps; unfold ptr_priority; simpl; now rewrite P1).
  assert (Hother : forall p,
             In p sorted ->
             p = 0%nat \/ p = 1%nat
             \/ (1 <= priority_value (ptr_priority comps p))%nat).
  { intros p Hp. apply Hin in Hp. destruct Hp as (c & Hc & _).
    destruct p as [| p]; [auto |]. destruct p as [| p]; [auto |].
    right. right. rewrite Hcomps in *. unfold ptr_priority.
    do 6 (destruct p as [| p];
          [simpl; rewrite ?P2, ?P3, ?P4, ?P5, ?P6, ?P7; simpl;
           repeat constructor |]).
    discriminate Hc. }
  assert (Hen0 : In 0%nat sorted).
  { apply Hin. exists c0. rewrite Hcomps in *. split; [reflexivity |].
    apply Forall_cons in Hen. destruct Hen as [Hc0 _]. now apply Hc0. }
  assert (Hen1 : In 1%nat sorted).
  { apply Hin. exists c1. rewrite Hcomps in *. split; [reflexivity |].
    apply Forall_cons in Hen. destruct Hen as [_ Hen].
    apply Forall_cons in Hen. destruct Hen as [Hc1 _]. now apply Hc1. }
  clear Hcomps Hin Hen Hcat Hsort.
  destruct sorted as [| x t]; [contradiction |].
  apply StronglySorted_inv in Hasc. destruct Hasc as [Hasc_t Hx].
  apply List.NoDup_cons_iff in Hnd. destruct Hnd as [Hxt Hnd_t].
  rewrite Forall_forall in Hx.
  assert (Hx01 : x = 0%nat \/ x = 1%nat).
  { destruct (Hother x (or_introl eq_refl)) as [-> | [-> | Hge]]; auto.
    exfalso. destruct Hen0 as [-> | H0t]; [lia |].
    apply list_elem_of_In, Hx in H0t. lia. }
  assert (Hsecond : forall o,
             In o t -> priority_value (ptr_priority comps o) = 0%nat ->
             (forall p, In p t ->
                        p = o \/ (1 <= priority_value (ptr_priority comps p))%nat) ->
             exists rest, t = o :: rest).
  { intros o Ho Hpvo Honly. destruct t as [| y rest]; [contradiction |].
    exists rest. f_equal.
    destruct (Honly y (or_introl eq_refl)) as [-> | Hge]; [reflexivity |].
    exfalso. apply StronglySorted_inv in Hasc_t. destruct Hasc_t as [_ Hy].
    rewrite Forall_forall in Hy.
    destruct Ho as [-> | Ho]; [lia |].
    apply list_elem_of_In, Hy in Ho. lia. }
  destruct Hx01 as [-> | ->].
  - destruct (Hsecond 1%nat) as [rest ->]; [| exact Hpv1 | | eauto].
    + destruct Hen1 as [Heq | H1t]; [discriminate | exact H1t].
    + intros p Hp. destruct (Hother p (or_intror Hp)) as [-> | [-> | Hge]];
        auto. contradiction.
  - destruct (Hsecond 0%nat) as [rest ->]; [| exact Hpv0 | | eauto].
    + destruct Hen0 as [Heq | H0t]; [discriminate | exact H0t].
    + intros p Hp. destruct (Hother p (or_intror Hp)) as [-> | [-> | Hge]];
        auto. contradiction.
Qed.

(** Whatever the order among the two CRITICAL entries, together they get
    [min(budget, 20)]. *)
Lemma critical_power_after_walk (comps : list PowerComponent)
      (sorted : list nat) (a : Q) :
  map catalog_entry comps = map catalog_entry initializeComponents ->
  Forall critical_enabled comps ->
  std_sort_post (by_priority comps) (collect_enabled 0 comps) sorted ->
  criticalConsumption (allocate_walk sorted a comps) == Qmin a 20.
Proof.
  intros Hcat Hen Hsort.
  destruct (sorted_components_facts comps sorted Hsort) as (Hin & Hnd & _).
  assert (Hval : Forall (fun p => is_Some (comps !! p)) sorted).
  { apply Forall_forall. intros p Hp. apply list_elem_of_In, Hin in Hp.
    destruct Hp as (c & Hc & _). now exists c. }
  pose proof (allocate_walk_shares sorted a comps Hnd Hval) as Hshares.
  assert (Hn0 : ptr_nominal_power comps 0 = 15).
  { rewrite (ptr_nominal_power_ext _ _ 0%nat Hcat). reflexivity. }
  assert (Hn1 : ptr_nominal_power comps 1 = 5).
  { rewrite (ptr_nominal_power_ext _ _ 1%nat Hcat). reflexivity. }
  set (after := allocate_walk sorted a comps) in *.
  assert (Hcat' : map catalog_entry after = map catalog_entry initializeComponents).
  { rewrite <- Hcat. now apply allocate_walk_map. }
  assert (Hen' : Forall critical_enabled after).
  { eapply critical_enabled_keeps; [| exact Hen]. symmetry.
    now apply allocate_walk_map. }
  assert (Hsum : criticalConsumption after
                 == ptr_current_power after 0 + ptr_current_power after 1).
  { destruct (catalog_shape after Hcat')
      as (c0 & c1 & c2 & c3 & c4 & c5 & c6 & c7 & Hafter & H0 & H1 & H2 & H3
          & H4 & H5 & H6 & H7).
    rewrite Hafter in *. unfold catalog_entry in *.
    injection H0 as _ P0 _ _. injection H1 as _ P1 _ _.
    injection H2 as _ P2 _ _. injection H3 as _ P3 _ _.
    injection H4 as _ P4 _ _. injection H5 as _ P5 _ _.
    injection H6 as _ P6 _ _. injection H7 as _ P7 _ _.
    apply Forall_cons in Hen'. destruct Hen' as [E0 Hen'].
    apply Forall_cons in Hen'. destruct Hen' as [E1 _].
    unfold criticalConsumption, ptr_current_power. simpl.
    rewrite P0, P1, P2, P3, P4, P5, P6, P7, (E0 P0), (E1 P1).
    unfold ComponentPriority_eqb. simpl.
    rewrite !andb_false_r. simpl. lra. }
  rewrite Hsum.
  destruct (critical_walked_first comps sorted Hcat Hen Hsort)
    as [rest [-> | ->]]; cbn [map] in Hshares; rewrite Hn0, Hn1 in Hshares;
    cbn [walk_shares] in Hshares.
  - destruct (float_ge a 15) eqn:E15.
    + apply float_ge_spec in E15.
      destruct (float_ge (a - 15) 5) eqn:E5;
        injection Hshares as -> -> _;
        [apply float_ge_spec in E5; rewrite Q.min_r by lra
        | apply float_ge_false in E5; rewrite Q.min_l by lra]; lra.
    + apply float_ge_false in E15.
      destruct (float_ge 0 5) eqn:E5;
        [apply float_ge_spec in E5; lra |].
      injection Hshares as -> -> _. rewrite Q.min_l by lra. lra.
  - destruct (float_ge a 5) eqn:E5.
    + apply float_ge_spec in E5.
      destruct (float_ge (a - 5) 15) eqn:E15;
        injection Hshares as -> -> _;
        [apply float_ge_spec in E15; rewrite Q.min_r by lra
        | apply float_ge_false in E15; rewrite Q.min_l by lra]; lra.
    + apply float_ge_false in E5.
      destruct (float_ge 0 15) eqn:E15;
        [apply float_ge_spec in E15; lra |].
      injection Hshares as -> -> _. rewrite Q.min_l by lra. lra.
Qed.

Lemma managementLoop_decide_invariants (pm : PowerManager) :
  map catalog_entry (components_ pm) = map catalog_entry initializeComponents ->
  Forall critical_enabled (components_ pm) ->
  map catalog_entry (components_ (managementLoop_decide pm))
  = map catalog_entry initializeComponents
  /\ Forall critical_enabled (components_ (managementLoop_decide pm)).
Proof.
  intros Hcat Hen. unfold managementLoop_decide.
  destruct (negb _); [| now split]. split.
  - transitivity (map catalog_entry
                    (components_ (updatePowerConsumption pm)));
      [apply switchMode_keeps; auto | exact Hcat].
  - apply (switchMode_critical _ (updatePowerConsumption pm)); assumption.
Qed.

(** X14. After every management tick from a reachable state, the two
    CRITICAL components together draw [min(solar_generation, 20)] and the
    available power the tick publishes is [max(0, solar_generation - 20)],
    whatever the mode, the state of charge, the motion commands and the
    order the sort chose. *)
Theorem tick_reports_solar_minus_critical (pm pm' : PowerManager) :
  reachable pm ->
  managementLoop pm pm' ->
  criticalConsumption (components_ pm')
  == Qmin (solar_generation (energy_state_ pm)) 20
  /\ getAvailablePower pm'
     == Qmax 0 (solar_generation (energy_state_ pm) - 20).
Proof.
  intros Hreach (pm_alloc & (sorted & Hsort & ->) & ->).
  destruct (run_critical_enabled pm Hreach) as [Hcat Hen].
  destruct (managementLoop_decide_invariants pm Hcat Hen) as [Hcat' Hen'].
  assert (Hcrit : criticalConsumption
                    (components_
                       (managementLoop_publish
                          (allocatePower_in_order sorted
                             (managementLoop_decide pm))))
                  == Qmin (solar_generation (energy_state_ pm)) 20).
  { simpl. rewrite managementLoop_decide_solar.
    now apply critical_power_after_walk. }
  split; [exact Hcrit |].
  unfold getAvailablePower. rewrite std_max_Qmax.
  rewrite getCriticalPowerConsumption_sum, Hcrit. simpl.
  rewrite managementLoop_decide_solar.
  set (s := solar_generation (energy_state_ pm)).
  destruct (Qlt_le_dec s 20) as [H | H].
  - rewrite Q.min_l by lra. rewrite !Q.max_l by lra. reflexivity.
  - rewrite Q.min_r by lra. reflexivity.
Qed.

(** X14 on an instance: 12 W of sun while the motors are commanded. *)
Lemma tick_reports_solar_minus_critical_witness :
  let pm := fold_left handle [SolarPower 12; CmdVel 1 0]
                      (PowerManager_new 0) in
  getAvailablePower (managementLoop_run pm) == Qmax 0 (12 - 20).
Proof.
  cbv zeta.
  refine (proj2 (tick_reports_solar_minus_critical
                   (fold_left handle [SolarPower 12; CmdVel 1 0]
                              (PowerManager_new 0)) _ _
                   (managementLoop_run_ok _))).
  exists 0. eexists. apply run_handle.
Defined.

(** ** Which transitions enable *)

Lemma adjust_entry_never_enables (m : PowerMode) (c : PowerComponent) :
  m <> NORMAL ->
  is_enabled (adjust_entry m c) = true ->
  is_enabled c = true \/ (m = EMERGENCY /\ priority c = CRITICAL).
Proof.
  intros Hm. destruct c as [n p nom cur en ess]. destruct m; simpl;
    [contradiction | | |].
  - unfold adjust_LOW_POWER. simpl.
    destruct (ComponentPriority_eqb p LOW); simpl;
      destruct (String.eqb n "cameras"); simpl; auto; discriminate.
  - unfold adjust_HIBERNATION. simpl.
    destruct (negb _ && negb ess); simpl; auto; discriminate.
  - unfold adjust_EMERGENCY. simpl.
    destruct (ComponentPriority_eqb p CRITICAL) eqn:E; simpl;
      [| discriminate].
    apply ComponentPriority_eqb_eq in E. auto.
Qed.

(** X15. Only a switch to NORMAL turns a non-CRITICAL component back on:
    after a switch to LOW_POWER, HIBERNATION or EMERGENCY every enabled
    component was already enabled before, or is a CRITICAL component
    enabled by EMERGENCY.  So the components enabled in LOW_POWER or
    HIBERNATION depend on the modes gone through before: entered from
    EMERGENCY, HIBERNATION leaves the essential navigation and motors
    off. *)
Theorem only_normal_reenables (m : PowerMode) (pm : PowerManager) :
  m <> NORMAL ->
  Forall2 (fun before after =>
             is_enabled after = true ->
             is_enabled before = true
             \/ (m = EMERGENCY /\ priority before = CRITICAL))
          (components_ pm) (components_ (switchMode m pm)).
Proof.
  intros Hm.
  rewrite switchMode_components, adjustComponentsForMode_components.
  induction (components_ pm) as [| c cs IH]; simpl; constructor;
    [now apply adjust_entry_never_enables | exact IH].
Qed.

(** X15 on an instance: HIBERNATION entered from EMERGENCY and from
    NORMAL. *)
Lemma only_normal_reenables_witness :
  Forall2 (fun before after =>
             is_enabled after = true ->
             is_enabled before = true
             \/ (HIBERNATION = EMERGENCY /\ priority before = CRITICAL))
          (components_ (setMode EMERGENCY (PowerManager_new 0)))
          (components_ (switchMode HIBERNATION
                                   (setMode EMERGENCY (PowerManager_new 0))))
  /\ map is_enabled
         (components_ (setMode HIBERNATION
                               (setMode EMERGENCY (PowerManager_new 0))))
     = [true; true; false; false; false; false; false; false]
  /\ map is_enabled
         (components_ (setMode HIBERNATION (PowerManager_new 0)))
     = [true; true; true; true; false; false; false; false].
Proof.
  split; [| split; reflexivity].
  apply only_normal_reenables. discriminate.
Defined.

(** ** Two ticks in a row *)

(** After a tick from a reachable state under non-negative sun, what the
    enabled components draw does not exceed the solar generation. *)
Lemma tick_consumption_within_solar (pm pm' : PowerManager) :
  reachable pm ->
  0 <= solar_generation (energy_state_ pm) ->
  managementLoop pm pm' ->
  totalConsumption (components_ pm') <= solar_generation (energy_state_ pm').
Proof.
  intros Hreach Hsun (pm_alloc & (sorted & Hsort & ->) & ->). simpl.
  destruct (run_critical_enabled pm Hreach) as [Hcat Hen].
  destruct (managementLoop_decide_invariants pm Hcat Hen) as [Hcat' _].
  rewrite managementLoop_decide_solar in *.
  rewrite allocate_walk_total; [apply Q.le_min_l | exact Hsort | | exact Hsun].
  apply (Forall_transfer catalog_entry _ initializeComponents).
  - intros x y Hxy Hx. unfold catalog_entry in Hxy.
    injection Hxy as _ _ Hnom _. now rewrite <- Hnom.
  - now symmetry.
  - repeat constructor; simpl; lra.
Qed.

(** X16. Once the allocator has run, the power balance is not negative:
    on a management tick that directly follows another one (no telemetry
    and no mode request in between, solar generation not negative) the
    balance clause of the LOW_POWER rule cannot fire.  If such a tick ends
    in LOW_POWER, the manager was in LOW_POWER already or the state of
    charge is below 30. *)
Theorem second_tick_balance_is_nonnegative (pm pm' pm'' : PowerManager) :
  reachable pm ->
  0 <= solar_generation (energy_state_ pm) ->
  managementLoop pm pm' ->
  managementLoop pm' pm'' ->
  0 <= solar_generation (energy_state_ pm')
       - power_consumption (energy_state_ pm'')
  /\ (current_mode_ pm'' = LOW_POWER ->
      current_mode_ pm' = LOW_POWER \/ battery_soc (energy_state_ pm) < 30).
Proof.
  intros Hreach Hsun Htick1 Htick2.
  pose proof (tick_consumption_within_solar pm pm' Hreach Hsun Htick1) as Hle.
  assert (Hsoc : battery_soc (energy_state_ pm')
                 = battery_soc (energy_state_ pm)).
  { destruct Htick1 as (pm_alloc & (sorted & _ & ->) & ->). simpl.
    unfold managementLoop_decide. destruct (negb _); [| reflexivity].
    now rewrite switchMode_battery_soc. }
  pose proof (updatePowerConsumption_sum pm') as Hupd.
  assert (Hcons : power_consumption (energy_state_ pm'')
                  = power_consumption
                      (energy_state_ (updatePowerConsumption pm'))).
  { destruct Htick2 as (pm_alloc & (sorted & _ & ->) & ->). simpl.
    unfold managementLoop_decide. destruct (negb _); [| reflexivity].
    now rewrite switchMode_power_consumption. }
  split; [rewrite Hcons, Hupd; lra |].
  assert (Hmode : current_mode_ pm''
                  = current_mode_ (managementLoop_decide pm')).
  { destruct Htick2 as (pm_alloc & (sorted & _ & ->) & ->). reflexivity. }
  rewrite Hmode, managementLoop_decide_mode. cbv zeta.
  unfold determineTargetMode.
  change (solar_generation (energy_state_ (updatePowerConsumption pm')))
    with (solar_generation (energy_state_ pm')).
  change (battery_soc (energy_state_ (updatePowerConsumption pm')))
    with (battery_soc (energy_state_ pm')).
  change (current_mode_ (updatePowerConsumption pm'))
    with (current_mode_ pm').
  rewrite Hsoc.
  destruct (float_lt (battery_soc (energy_state_ pm)) 15); [discriminate |].
  destruct (float_lt (solar_generation (energy_state_ pm')) 5
            && float_lt (battery_soc (energy_state_ pm)) 50);
    [discriminate |].
  float_case (battery_soc (energy_state_ pm)) 30; [auto |].
  float_case (solar_generation (energy_state_ pm')
              - power_consumption (energy_state_ (updatePowerConsumption pm')))
             (-10); [rewrite Hupd in *; lra |].
  simpl.
  destruct (float_lt 40 (battery_soc (energy_state_ pm)) && float_lt 0 _);
    [discriminate | auto].
Qed.

(** X16 on an instance: a fresh manager under 30 W goes to LOW_POWER on
    the first tick (balance -50) and stays there on the second, the
    balance then being 0. *)
Lemma second_tick_balance_is_nonnegative_witness :
  let pm := solarCallback 30 (PowerManager_new 0) in
  let pm1 := managementLoop_run pm in
  let pm2 := managementLoop_run pm1 in
  0 <= solar_generation (energy_state_ pm1)
       - power_consumption (energy_state_ pm2).
Proof.
  cbv zeta.
  refine (proj1 (second_tick_balance_is_nonnegative
                   (solarCallback 30 (PowerManager_new 0)) _ _ _ _
                   (managementLoop_run_ok _) (managementLoop_run_ok _))).
  - exists 0, [SolarPower 30]. apply run_handle.
  - vm_compute. congruence.
Defined.

(** ** Priority classes *)

Lemma walk_shares_app (ns1 ns2 : list Q) (a : Q) :
  walk_shares (ns1 ++ ns2) a
  = walk_shares ns1 a ++ walk_shares ns2 (walk_remaining ns1 a).
Proof.
  revert a. induction ns1 as [| n ns1 IH]; intros a; simpl; [reflexivity |].
  destruct (float_ge a n); simpl; now rewrite IH.
Qed.

Lemma walk_remaining_value (ns : list Q) (a : Q) :
  Forall (fun n => 0 <= n) ns -> 0 <= a ->
  walk_remaining ns a == Qmax 0 (a - Qsum ns).
Proof.
  intros Hns. revert a. induction Hns as [| n ns Hn Hns IH]; intros a Ha;
    simpl.
  - rewrite Q.max_r by lra. lra.
  - pose proof (Qsum_nonneg ns Hns) as Hs.
    destruct (float_ge a n) eqn:E.
    + apply float_ge_spec in E. rewrite IH by lra.
      apply Q.max_compat; [reflexivity | lra].
    + apply float_ge_false in E. rewrite IH by lra.
      rewrite !Q.max_l by lra. reflexivity.
Qed.

Lemma Permutation_List_filter {A : Type} (f : A -> bool) (l l' : list A) :
  Permutation l l' -> Permutation (List.filter f l) (List.filter f l').
Proof.
  induction 1 as [| x l l' _ IH | x y l | l l' l'' _ IH1 _ IH2]; simpl.
  - constructor.
  - destruct (f x); [now constructor | exact IH].
  - destruct (f x), (f y); try reflexivity. apply perm_swap.
  - etransitivity; eassumption.
Qed.

(** A walk order falls into the components served before a priority class
    and the rest. *)
Lemma sorted_split (key : nat -> nat) (k : nat) (l : list nat) :
  StronglySorted (fun a b => (key a <= key b)%nat) l ->
  l = List.filter (fun p => Nat.ltb (key p) k) l
      ++ List.filter (fun p => negb (Nat.ltb (key p) k)) l.
Proof.
  induction 1 as [| x t Ht IH Hx]; simpl; [reflexivity |].
  destruct (Nat.ltb_spec (key x) k) as [Hlt | Hge]; simpl.
  - f_equal. exact IH.
  - assert (Hnone : List.filter (fun p => Nat.ltb (key p) k) t = []).
    { clear IH Ht. induction Hx as [| y t Hy _ IHt]; simpl; [reflexivity |].
      destruct (Nat.ltb_spec (key y) k); [lia | exact IHt]. }
    assert (Hall : List.filter (fun p => negb (Nat.ltb (key p) k)) t = t).
    { clear IH Ht Hnone. induction Hx as [| y t Hy _ IHt]; simpl;
        [reflexivity |].
      destruct (Nat.ltb_spec (key y) k); [lia |]. simpl. now rewrite IHt. }
    now rewrite Hnone, Hall.
Qed.

Lemma StronglySorted_List_filter {A : Type} (R : A -> A -> Prop)
      (f : A -> bool) (l : list A) :
  StronglySorted R l -> StronglySorted R (List.filter f l).
Proof.
  induction 1 as [| x t Ht IH Hx]; simpl; [constructor |].
  destruct (f x); [| exact IH]. constructor; [exact IH |].
  clear IH Ht. induction Hx as [| y t Hy _ IHt]; simpl; [constructor |].
  destruct (f y); [now constructor | exact IHt].
Qed.

(** Sums over the pointers of a walk that fall in a set of priorities are
    sums over the enabled components of those priorities. *)
Lemma collect_enabled_filter_map (sel : ComponentPriority -> bool)
      (f : PowerComponent -> Q) (pre comps : list PowerComponent) :
  map (fun p => match (pre ++ comps) !! p with
                | Some c => f c
                | None => 0
                end)
      (List.filter (fun p => sel (ptr_priority (pre ++ comps) p))
                   (collect_enabled (length pre) comps))
  = map f (List.filter (fun c => is_enabled c && sel (priority c)) comps).
Proof.
  revert pre. induction comps as [| c comps IH]; intros pre; simpl.
  - reflexivity.
  - specialize (IH (pre ++ [c])).
    rewrite <- app_assoc, length_app in IH. simpl in IH.
    rewrite Nat.add_1_r in IH.
    destruct (is_enabled c); simpl; [| exact IH].
    unfold ptr_priority at 1. rewrite list_lookup_middle by reflexivity.
    destruct (sel (priority c)); simpl; [| exact IH].
    rewrite IH. f_equal. now rewrite list_lookup_middle.
Qed.

Lemma walk_filter_sum (sel : ComponentPriority -> bool)
      (f : PowerComponent -> Q) (comps : list PowerComponent)
      (sorted : list nat) :
  Permutation (collect_enabled 0 comps) sorted ->
  Qsum (map (fun p => match comps !! p with
                      | Some c => f c
                      | None => 0
                      end)
            (List.filter (fun p => sel (ptr_priority comps p)) sorted))
  == Qsum (map f (List.filter (fun c => is_enabled c && sel (priority c))
                              comps)).
Proof.
  intros Hperm.
  rewrite <- (collect_enabled_filter_map sel f [] comps). simpl.
  apply Qsum_Permutation, Permutation_map, Permutation_List_filter.
  now symmetry.
Qed.

Lemma List_filter_filter {A : Type} (f g : A -> bool) (l : list A) :
  List.filter f (List.filter g l) = List.filter (fun x => g x && f x) l.
Proof.
  induction l as [| x l IH]; simpl; [reflexivity |].
  destruct (g x); simpl; [destruct (f x) |]; now rewrite IH.
Qed.

Lemma sorted_split3 (key : nat -> nat) (k : nat) (l : list nat) :
  StronglySorted (fun a b => (key a <= key b)%nat) l ->
  l = List.filter (fun p => Nat.ltb (key p) k) l
      ++ List.filter (fun p => Nat.eqb (key p) k) l
      ++ List.filter (fun p => Nat.ltb k (key p)) l.
Proof.
  intros Hs. rewrite (sorted_split key k l Hs) at 1. f_equal.
  pose proof (StronglySorted_List_filter _
                (fun p => negb (Nat.ltb (key p) k)) l Hs) as Hr.
  rewrite (sorted_split key (S k) _ Hr) at 1.
  rewrite !List_filter_filter. f_equal; apply List.filter_ext; intros p.
  - destruct (Nat.ltb_spec (key p) k), (Nat.ltb_spec (key p) (S k)),
      (Nat.eqb_spec (key p) k); simpl; try reflexivity; lia.
  - destruct (Nat.ltb_spec (key p) k), (Nat.ltb_spec (key p) (S k)),
      (Nat.ltb_spec k (key p)); simpl; try reflexivity; lia.
Qed.

Lemma class_consumption_formula (comps : list PowerComponent)
      (sorted : list nat) (budget : Q) (pr : ComponentPriority) :
  std_sort_post (by_priority comps) (collect_enabled 0 comps) sorted ->
  Forall (fun c => 0 <= nominal_power c) comps ->
  0 <= budget ->
  class_consumption pr (allocate_walk sorted budget comps)
  == Qmin (Qmax 0 (budget - earlier_demand pr comps)) (class_demand pr comps).
Proof.
  intros Hsort Hnn Hb.
  destruct (sorted_components_facts comps sorted Hsort) as (Hin & Hnd & Hasc).
  assert (Hval : Forall (fun p => is_Some (comps !! p)) sorted).
  { apply Forall_forall. intros p Hp. apply list_elem_of_In, Hin in Hp.
    destruct Hp as (c & Hc & _). now exists c. }
  pose proof (allocate_walk_shares sorted budget comps Hnd Hval) as Hshares.
  set (after := allocate_walk sorted budget comps) in *.
  assert (Hcat : map catalog_entry after = map catalog_entry comps)
    by now apply allocate_walk_map.
  assert (Hperm' : Permutation (collect_enabled 0 after) sorted).
  { rewrite (collect_enabled_ext 0 after comps); [exact (proj1 Hsort) |].
    now apply allocate_walk_map. }
  set (key := fun p => priority_value (ptr_priority comps p)).
  set (k := priority_value pr).
  set (L := List.filter (fun p => Nat.ltb (key p) k) sorted).
  set (M := List.filter (fun p => Nat.eqb (key p) k) sorted).
  set (R := List.filter (fun p => Nat.ltb k (key p)) sorted).
  assert (Hsplit : sorted = L ++ M ++ R) by exact (sorted_split3 key k sorted Hasc).
  (* the three sums *)
  assert (HL : Qsum (map (ptr_nominal_power comps) L) == earlier_demand pr comps).
  { apply (walk_filter_sum (fun q => ComponentPriority_ltb q pr) nominal_power
                           comps sorted (proj1 Hsort)). }
  assert (HM : Qsum (map (ptr_nominal_power comps) M) == class_demand pr comps).
  { apply (walk_filter_sum (fun q => ComponentPriority_eqb q pr) nominal_power
                           comps sorted (proj1 Hsort)). }
  assert (HC : Qsum (map (ptr_current_power after) M)
               == class_consumption pr after).
  { unfold M.
    rewrite (List.filter_ext _
               (fun p => ComponentPriority_eqb (ptr_priority after p) pr)).
    - apply (walk_filter_sum (fun q => ComponentPriority_eqb q pr)
                             current_power after sorted Hperm').
    - intros p. unfold key, k, ComponentPriority_eqb.
      now rewrite (ptr_priority_ext after comps p Hcat). }
  (* the shares of the class *)
  rewrite Hsplit in Hshares at 1 2.
  rewrite !map_app, !walk_shares_app in Hshares.
  apply app_inj_1 in Hshares;
    [| now rewrite walk_shares_length, !length_map].
  destruct Hshares as [_ Hshares].
  apply app_inj_1 in Hshares;
    [| now rewrite walk_shares_length, !length_map].
  destruct Hshares as [HsM _].
  assert (HnnL : Forall (fun n => 0 <= n) (map (ptr_nominal_power comps) L)).
  { apply Forall_map, Forall_forall. intros p _.
    now apply ptr_nominal_power_nonneg. }
  assert (HnnM : Forall (fun n => 0 <= n) (map (ptr_nominal_power comps) M)).
  { apply Forall_map, Forall_forall. intros p _.
    now apply ptr_nominal_power_nonneg. }
  pose proof (walk_remaining_value _ budget HnnL Hb) as Hrem.
  assert (Hrem0 : 0 <= walk_remaining (map (ptr_nominal_power comps) L) budget).
  { rewrite Hrem. apply Q.le_max_l. }
  rewrite <- HC, HsM, walk_shares_sum by assumption.
  now rewrite Hrem, HL, HM.
Qed.

(** X17. With non-negative nominal powers and a non-negative budget, what
    the enabled components of one priority draw together after the
    allocation is [min(max(0, budget - earlier), demand)], where [demand] is
    the sum of their nominal powers and [earlier] the sum of the nominal
    powers of the enabled components of higher priority (smaller value).
    The order the sort chooses among equal priorities can change how a
    class's share is split, never the share of the class. *)
Theorem class_share_is_order_independent (comps : list PowerComponent)
        (sorted1 sorted2 : list nat) (budget : Q) (pr : ComponentPriority) :
  std_sort_post (by_priority comps) (collect_enabled 0 comps) sorted1 ->
  std_sort_post (by_priority comps) (collect_enabled 0 comps) sorted2 ->
  Forall (fun c => 0 <= nominal_power c) comps ->
  0 <= budget ->
  class_consumption pr (allocate_walk sorted1 budget comps)
  == Qmin (Qmax 0 (budget - earlier_demand pr comps)) (class_demand pr comps)
  /\ class_consumption pr (allocate_walk sorted1 budget comps)
     == class_consumption pr (allocate_walk sorted2 budget comps).
Proof.
  intros H1 H2 Hnn Hb.
  pose proof (class_consumption_formula comps sorted1 budget pr H1 Hnn Hb) as F1.
  pose proof (class_consumption_formula comps sorted2 budget pr H2 Hnn Hb) as F2.
  split; [exact F1 | now rewrite F1, F2].
Qed.

(** X17 on an instance: the initial registry under 10 W in the two orders
    of its CRITICAL entries. *)
Lemma class_share_is_order_independent_witness :
  class_consumption CRITICAL
    (allocate_walk [0; 1; 2; 3; 4; 5; 7; 6]%nat 10 initializeComponents)
  == class_consumption CRITICAL
       (allocate_walk [1; 0; 2; 3; 4; 5; 7; 6]%nat 10 initializeComponents).
Proof.
  refine (proj2 (class_share_is_order_independent initializeComponents
                   _ _ 10 CRITICAL initial_walk_post watchdog_first_post _ _)).
  - repeat constructor; vm_compute; congruence.
  - vm_compute; congruence.
Defined.

(** ** Ticks and the order of the sort *)

(** X18. The order the sort chooses cannot change what a management tick
    decides: two outcomes of a tick from the same state have the same
    mode, the same energy state, the same catalog entries and enabled
    flags, the same entries for disabled components and, nominal powers
    and solar generation being non-negative, the same consumption for
    every priority class. *)
Theorem tick_outcomes_agree (pm pm1 pm2 : PowerManager) :
  managementLoop pm pm1 ->
  managementLoop pm pm2 ->
  current_mode_ pm1 = current_mode_ pm2
  /\ energy_state_ pm1 = energy_state_ pm2
  /\ map catalog_entry (components_ pm1) = map catalog_entry (components_ pm2)
  /\ map is_enabled (components_ pm1) = map is_enabled (components_ pm2)
  /\ (forall p c, components_ pm1 !! p = Some c -> is_enabled c = false ->
                  components_ pm2 !! p = Some c)
  /\ (Forall (fun c => 0 <= nominal_power c) (components_ pm) ->
      0 <= solar_generation (energy_state_ pm) ->
      forall pr, class_consumption pr (components_ pm1)
                 == class_consumption pr (components_ pm2)).
Proof.
  intros (a1 & (s1 & Hs1 & ->) & ->) (a2 & (s2 & Hs2 & ->) & ->). simpl.
  set (D := managementLoop_decide pm) in *.
  split; [reflexivity |]. split; [reflexivity |].
  split; [now rewrite !(allocate_walk_map catalog_entry) |].
  split; [now rewrite !(allocate_walk_map is_enabled) |].
  destruct (sorted_components_facts _ s1 Hs1) as (Hin1 & _ & _).
  destruct (sorted_components_facts _ s2 Hs2) as (Hin2 & _ & _).
  split.
  - intros p c Hc Hoff.
    assert (Hp1 : ~ In p s1).
    { intros Hp. apply Hin1 in Hp. destruct Hp as (c0 & Hc0 & He0).
      destruct (allocate_walk_lookup
                  s1 (solar_generation (energy_state_ D)) _ p c0 Hc0)
        as [w Hw].
      rewrite Hw in Hc. injection Hc as <-. simpl in Hoff. congruence. }
    rewrite allocate_walk_lookup_other in Hc by assumption.
    rewrite allocate_walk_lookup_other; [exact Hc |].
    intros Hp. apply Hin2 in Hp. destruct Hp as (c0 & Hc0 & He0). congruence.
  - intros Hnn Hsun pr.
    assert (HnnD : Forall (fun c => 0 <= nominal_power c) (components_ D)).
    { apply (Forall_transfer catalog_entry _ (components_ pm));
        [| | exact Hnn].
      - intros x y Hxy Hx. unfold catalog_entry in Hxy.
        injection Hxy as _ _ Hnom _. now rewrite <- Hnom.
      - unfold D.
        destruct (managementLoop_decide_components pm) as [-> | [m ->]];
          [reflexivity |].
        symmetry. apply switchMode_keeps. auto. }
    assert (HsunD : 0 <= solar_generation (energy_state_ D))
      by (unfold D; now rewrite managementLoop_decide_solar).
    rewrite !class_consumption_formula by assumption. reflexivity.
Qed.

(** X18 on an instance: the first tick under 10 W with the order of the
    sort used here and with the order that walks the watchdog first. *)
Lemma tick_outcomes_agree_witness :
  let pm := solarCallback 10 (PowerManager_new 0) in
  let other :=
    managementLoop_publish
      (allocatePower_in_order [1; 0; 2; 3; 4; 7]%nat
                              (managementLoop_decide pm)) in
  current_mode_ (managementLoop_run pm) = current_mode_ other
  /\ class_consumption CRITICAL (components_ (managementLoop_run pm))
     == class_consumption CRITICAL (components_ other)
  /\ components_ (managementLoop_run pm) <> components_ other.
Proof.
  cbv zeta.
  destruct (tick_outcomes_agree
              (solarCallback 10 (PowerManager_new 0))
              (managementLoop_run _)
              (managementLoop_publish
                 (allocatePower_in_order [1; 0; 2; 3; 4; 7]%nat
                    (managementLoop_decide
                       (solarCallback 10 (PowerManager_new 0)))))
              (managementLoop_run_ok _))
    as (Hm & _ & _ & _ & _ & Hclass).
  - eexists. split; [| reflexivity]. exists [1; 0; 2; 3; 4; 7]%nat.
    split; [| reflexivity]. split.
    + simpl. apply perm_swap.
    + repeat constructor.
  - split; [exact Hm |]. split.
    + apply Hclass; [repeat constructor; vm_compute; congruence
                    | vm_compute; congruence].
    + vm_compute. discriminate.
Defined.

(** X19. Every mode change a tick makes has its cause in the energy state
    the tick leaves: if the mode after the tick differs from the mode
    before, then the state of charge, solar generation and consumption
    found in the energy state afterwards satisfy the rule of the new mode
    and none of the rules before it. *)
Theorem tick_mode_change_has_cause (pm pm' : PowerManager) :
  managementLoop pm pm' ->
  current_mode_ pm' <> current_mode_ pm ->
  let es := energy_state_ pm' in
  let soc := battery_soc es in
  let balance := solar_generation es - power_consumption es in
  match current_mode_ pm' with
  | EMERGENCY => soc < 15
  | HIBERNATION => 15 <= soc /\ solar_generation es < 5 /\ soc < 50
  | LOW_POWER =>
      15 <= soc /\ ~ (solar_generation es < 5 /\ soc < 50)
      /\ (soc < 30 \/ balance < -10)
  | NORMAL =>
      ~ (solar_generation es < 5 /\ soc < 50)
      /\ -10 <= balance /\ 40 < soc /\ 0 < balance
  end.
Proof.
  intros (pm_alloc & (sorted & _ & ->) & ->). simpl.
  unfold managementLoop_decide.
  set (pm1 := updatePowerConsumption pm).
  set (target := determineTargetMode pm1 _ _).
  destruct (PowerMode_eqb target (current_mode_ pm1)) eqn:E; cbn [negb];
    [intros H; now contradiction H |].
  intros _.
  rewrite switchMode_current_mode, switchMode_battery_soc,
    switchMode_solar_generation, switchMode_power_consumption.
  apply PowerMode_eqb_neq in E.
  unfold target, determineTargetMode in *.
  set (soc := battery_soc (energy_state_ pm1)) in *.
  set (sun := solar_generation (energy_state_ pm1)) in *.
  set (bal := sun - power_consumption (energy_state_ pm1)) in *.
  float_case soc 15; [exact E0 |].
  float_case sun 5; float_case soc 50; simpl in *;
    try (split; [exact E0 |]; split; assumption).
  all: float_case soc 30; float_case bal (-10); simpl in *;
    try (split; [exact E0 |]; split; [lra |]; auto; fail).
  all: float_case 40 soc; float_case 0 bal; simpl in *;
    try (now contradiction E);
    split; [lra |]; split; [assumption |]; split; assumption.
Qed.

(** X19 on an instance: the first tick of a fresh manager under 10 W. *)
Lemma tick_mode_change_has_cause_witness :
  let pm' := managementLoop_run (solarCallback 10 (PowerManager_new 0)) in
  15 <= battery_soc (energy_state_ pm')
  /\ ~ (solar_generation (energy_state_ pm') < 5
        /\ battery_soc (energy_state_ pm') < 50)
  /\ (battery_soc (energy_state_ pm') < 30
      \/ solar_generation (energy_state_ pm')
         - power_consumption (energy_state_ pm') < -10).
Proof.
  cbv zeta.
  refine (tick_mode_change_has_cause
            (solarCallback 10 (PowerManager_new 0)) _
            (managementLoop_run_ok _) _).
  vm_compute. discriminate.
Defined.
